(** * Schema analyzer: aggregation and rendering of column metadata

    Shallow embedding of [src/database/schema_analyzer.py].

    The script parses a JSON array of objects into [schema_data], groups the
    records by schema and table into [organized_schema], and renders three
    texts: a markdown summary, a Mermaid relationship diagram and a JSON
    statistics document.

    Conventions of the embedding.
    - A Python [str] is a Rocq [string] holding its UTF-8 bytes.  Equality,
      [split('.')], concatenation and the code-point order used by
      [sorted] coincide with the corresponding operations on UTF-8 bytes.
    - A record of [schema_data] is a JSON object.  Of its members only the
      seven keys read by the loop matter; each may be absent.  When present,
      [schema], [table], [column], [data_type] and [nullable] hold JSON
      strings, [constraint_type] and [references_table] hold a JSON string
      or [null] (the shape of the rows produced by the SQL query whose
      result the script reads).
    - [organized_schema] is a [defaultdict]; Python dictionaries iterate in
      insertion order and the statistics are emitted in that order, so the
      dictionary is an association list kept in insertion order.
    - An exception escaping the body is caught by the handler at the end of
      [analyze_schema], which reports it and exits with status 1; the
      embedding returns [Raise e]. *)

From Stdlib Require Import String Ascii List Arith NArith Lia Bool.
From Stdlib Require Import Permutation Sorted Orders Mergesort FinFun.
From Stdlib Require Import Decimal DecimalString.
Import ListNotations.

Local Open Scope string_scope.
Local Open Scope list_scope.

(** ** Exceptions *)

Inductive error : Type :=
| KeyError (key : string).

Inductive result (A : Type) : Type :=
| Ok (a : A)
| Raise (e : error).

Arguments Ok {A} a.
Arguments Raise {A} e.

Definition bind {A B : Type} (c : result A) (k : A -> result B) : result B :=
  match c with
  | Ok a => k a
  | Raise e => Raise e
  end.

Notation "x <- c ;; k" := (bind c (fun x => k))
  (at level 61, c at next level, right associativity).

(** ** Input records *)

(** One element of [schema_data]: a JSON object restricted to the keys the
    loop reads.  [None] is an absent key; for the last two fields
    [Some None] is a present key holding [null]. *)
Record item : Type := Item {
  item_schema : option string;
  item_table : option string;
  item_column : option string;
  item_data_type : option string;
  item_nullable : option string;
  item_constraint_type : option (option string);
  item_references_table : option (option string)
}.

(** [item[key]]: subscripting a [dict] raises [KeyError] on an absent key. *)
Definition getitem {A : Type} (key : string) (member : option A) : result A :=
  match member with
  | Some v => Ok v
  | None => Raise (KeyError key)
  end.

(** The seven local variables bound at the head of the loop body. *)
Record row : Type := Row {
  schema : string;
  table : string;
  column : string;
  data_type : string;
  nullable : string;
  constraint_type : option string;
  references_table : option string
}.

Definition read_item (it : item) : result row :=
  schema <- getitem "schema" (item_schema it) ;;
  table <- getitem "table" (item_table it) ;;
  column <- getitem "column" (item_column it) ;;
  data_type <- getitem "data_type" (item_data_type it) ;;
  nullable <- getitem "nullable" (item_nullable it) ;;
  constraint_type <- getitem "constraint_type" (item_constraint_type it) ;;
  references_table <- getitem "references_table" (item_references_table it) ;;
  Ok (Row schema table column data_type nullable constraint_type references_table).

(** ** The aggregated structure *)

Record column_info : Type := Column {
  col_name : string;
  col_type : string;
  col_nullable : bool
}.

Record foreign_key : Type := ForeignKey {
  fk_column : string;
  fk_references : option string
}.

Record table_info : Type := Table {
  columns : list column_info;
  primary_key : option string;
  foreign_keys : list foreign_key;
  unique_constraints : list string
}.

(** The value built by the innermost [lambda] of the [defaultdict]. *)
Definition new_table : table_info := Table [] None [] [].

(** A [defaultdict] with string keys, in insertion order. *)
Abbreviation defaultdict V := (list (string * V)) (only parsing).

Definition keys {V : Type} (d : defaultdict V) : list string := map fst d.

Fixpoint lookup {V : Type} (k : string) (d : defaultdict V) : option V :=
  match d with
  | [] => None
  | (k', v) :: d' => if String.eqb k k' then Some v else lookup k d'
  end.

(** [d[k]] read for its value: the stored value, or the default. *)
Definition dd_get {V : Type} (dflt : V) (k : string) (d : defaultdict V) : V :=
  match lookup k d with
  | Some v => v
  | None => dflt
  end.

(** [d[k]] followed by an in-place change [f] of the value found there; an
    absent key is first inserted, at the end, with the default value. *)
Fixpoint dd_modify {V : Type} (dflt : V) (k : string) (f : V -> V)
    (d : defaultdict V) : defaultdict V :=
  match d with
  | [] => [(k, f dflt)]
  | (k', v) :: d' =>
      if String.eqb k k' then (k', f v) :: d'
      else (k', v) :: dd_modify dflt k f d'
  end.

Abbreviation schema_map := (defaultdict (defaultdict table_info)) (only parsing).

Definition lookup_table (s t : string) (org : schema_map) : option table_info :=
  match lookup s org with
  | Some tables => lookup t tables
  | None => None
  end.

(** ** Aggregation (the loop over [schema_data]) *)

Definition column_of_row (r : row) : column_info :=
  Column (column r) (data_type r) (String.eqb (nullable r) "NULL").

Definition add_column (r : row) (td : table_info) : table_info :=
  Table (columns td ++ [column_of_row r])
        (primary_key td) (foreign_keys td) (unique_constraints td).

Definition is_constraint (r : row) (kind : string) : bool :=
  match constraint_type r with
  | Some c => String.eqb c kind
  | None => false
  end.

Definition add_constraint (r : row) (td : table_info) : table_info :=
  if is_constraint r "PRIMARY KEY" then
    Table (columns td) (Some (column r)) (foreign_keys td) (unique_constraints td)
  else if is_constraint r "FOREIGN KEY" then
    Table (columns td) (primary_key td)
          (foreign_keys td ++ [ForeignKey (column r) (references_table r)])
          (unique_constraints td)
  else if is_constraint r "UNIQUE" then
    Table (columns td) (primary_key td) (foreign_keys td)
          (unique_constraints td ++ [column r])
  else td.

Definition add_row (r : row) (td : table_info) : table_info :=
  add_constraint r (add_column r td).

Definition store_row (org : schema_map) (r : row) : schema_map :=
  dd_modify [] (schema r)
    (dd_modify new_table (table r) (add_row r)) org.

Fixpoint organize (organized_schema : schema_map) (schema_data : list item)
    : result schema_map :=
  match schema_data with
  | [] => Ok organized_schema
  | it :: rest =>
      r <- read_item it ;;
      organize (store_row organized_schema r) rest
  end.

Definition aggregate (schema_data : list item) : result schema_map :=
  organize [] schema_data.

(** ** Text primitives *)

Local Open Scope string_scope.

(** The characters that cannot be written inside a string literal. *)
Definition nl : string := String "010"%char EmptyString.
Definition dquote : string := String "034"%char EmptyString.

(** [str(n)] for a non-negative [int]. *)
Definition str_of_nat (n : nat) : string :=
  NilZero.string_of_uint (Nat.to_uint n).

(** [str(v)] as an f-string formats a value that is a string or [None]. *)
Definition str_of_optional (v : option string) : string :=
  match v with
  | Some s => s
  | None => "None"
  end.

(** [s.split('.')]: cut at every full stop; [n] stops give [n + 1] parts. *)
Fixpoint split_dot (s : string) : list string :=
  match s with
  | EmptyString => [EmptyString]
  | String c rest =>
      if Ascii.eqb c "."%char then EmptyString :: split_dot rest
      else match split_dot rest with
           | part :: parts => String c part :: parts
           | [] => [String c EmptyString]
           end
  end.

(** Truth value of a string in a condition: the empty string is false. *)
Definition nonempty (s : string) : bool :=
  match s with
  | EmptyString => false
  | String _ _ => true
  end.

(** [sorted(d.keys())]: strings ordered by code point. *)
Module StringOrder <: TotalLeBool.
Definition t : Type := string.
Definition leb : t -> t -> bool := String.leb.
Lemma leb_total : forall s1 s2 : t, leb s1 s2 = true \/ leb s2 s1 = true.
Proof. exact String.leb_total. Qed.
End StringOrder.

Module StringSort := Sort StringOrder.

Definition sorted (l : list string) : list string := StringSort.sort l.

(** ** Markdown summary *)

Definition same_as_primary_key (name : string) (pk : option string) : bool :=
  match pk with
  | Some k => String.eqb name k
  | None => false
  end.

(** The list [constraints] built for one column. *)
Definition constraints_of (table_data : table_info) (col : column_info)
    : list string :=
  let constraints := [] in
  let constraints :=
    if same_as_primary_key (col_name col) (primary_key table_data)
    then (constraints ++ ["PRIMARY KEY"])%list else constraints in
  let constraints :=
    if existsb (String.eqb (col_name col)) (unique_constraints table_data)
    then (constraints ++ ["UNIQUE"])%list else constraints in
  let fk_constraint :=
    find (fun fk => String.eqb (fk_column fk) (col_name col))
         (foreign_keys table_data) in
  match fk_constraint with
  | Some fk =>
      (constraints
         ++ [("FK → " ++ str_of_optional (fk_references fk))%string])%list
  | None => constraints
  end.

Definition summary_row (table_data : table_info) (col : column_info) : string :=
  "| " ++ col_name col ++ " | " ++ col_type col ++ " | "
  ++ (if col_nullable col then "Sí" else "No") ++ " | "
  ++ String.concat ", " (constraints_of table_data col) ++ " |" ++ nl.

Definition summary_table (tables : defaultdict table_info)
    (summary : string) (table : string) : string :=
  let table_data := dd_get new_table table tables in
  let summary := summary ++ "### Tabla: " ++ table ++ nl ++ nl in
  let summary := summary ++ "#### Columnas" ++ nl ++ nl in
  let summary := summary ++ "| Nombre | Tipo | Nullable | Restricciones |" ++ nl in
  let summary := summary ++ "|--------|------|----------|---------------|" ++ nl in
  let summary :=
    fold_left (fun summary col => summary ++ summary_row table_data col)
              (columns table_data) summary in
  summary ++ nl.

Definition summary_schema (organized_schema : schema_map)
    (summary : string) (schema : string) : string :=
  let summary := summary ++ "## Esquema: " ++ schema ++ nl ++ nl in
  let tables := sorted (keys (dd_get [] schema organized_schema)) in
  let summary :=
    summary ++ "Contiene " ++ str_of_nat (List.length tables) ++ " tabla(s):"
    ++ nl ++ nl in
  let summary :=
    fold_left (summary_table (dd_get [] schema organized_schema)) tables summary in
  summary ++ nl.

Definition render_summary (organized_schema : schema_map) (timestamp : string)
    : string :=
  let summary := "# Resumen del Esquema de Base de Datos" ++ nl ++ nl in
  let summary := summary ++ "*Generado el: " ++ timestamp ++ "*" ++ nl ++ nl in
  fold_left (summary_schema organized_schema)
            (sorted (keys organized_schema)) summary.

(** ** Relationship view *)

Definition pk_marker (table_data : table_info) (col : column_info) : string :=
  if same_as_primary_key (col_name col) (primary_key table_data)
  then "PK" else "".

Definition relations_entity (organized_schema : schema_map) (schema : string)
    (relations_summary : string) (table : string) : string :=
  let table_data := dd_get new_table table (dd_get [] schema organized_schema) in
  let relations_summary :=
    relations_summary ++ "    " ++ schema ++ "_" ++ table ++ " {" ++ nl in
  let relations_summary :=
    fold_left (fun relations_summary col =>
                 relations_summary ++ "        " ++ col_type col ++ " "
                 ++ col_name col ++ " " ++ pk_marker table_data col ++ nl)
              (columns table_data) relations_summary in
  relations_summary ++ "    }" ++ nl.

Definition relations_entities (organized_schema : schema_map)
    (relations_summary : string) : string :=
  fold_left (fun relations_summary schema =>
               fold_left (relations_entity organized_schema schema)
                         (sorted (keys (dd_get [] schema organized_schema)))
                         relations_summary)
            (sorted (keys organized_schema)) relations_summary.

(** The relationship line written for one foreign key. *)
Definition relation_line (schema table ref_schema ref_table column : string)
    : string :=
  "    " ++ schema ++ "_" ++ table ++ " ||--o{ " ++ ref_schema ++ "_"
  ++ ref_table ++ " : " ++ dquote ++ column ++ dquote ++ nl.

(** The body of the innermost relationship loop; [None] is false in the
    condition, as the empty string is. *)
Definition relations_foreign_key (schema table : string)
    (relations_summary : string) (fk : foreign_key) : string :=
  match fk_references fk with
  | Some references =>
      if nonempty references then
        let ref_parts := split_dot references in
        match ref_parts with
        | [ref_schema; ref_table] =>
            relations_summary
            ++ relation_line schema table ref_schema ref_table (fk_column fk)
        | _ => relations_summary
        end
      else relations_summary
  | None => relations_summary
  end.

Definition relations_links (organized_schema : schema_map)
    (relations_summary : string) : string :=
  fold_left (fun relations_summary schema =>
    fold_left (fun relations_summary table =>
      fold_left (relations_foreign_key schema table)
        (foreign_keys
           (dd_get new_table table (dd_get [] schema organized_schema)))
        relations_summary)
      (sorted (keys (dd_get [] schema organized_schema))) relations_summary)
    (sorted (keys organized_schema)) relations_summary.

(** The text that precedes the entity declarations. *)
Definition relations_header (timestamp : string) : string :=
  let relations_summary := "# Relaciones entre Tablas" ++ nl ++ nl in
  let relations_summary :=
    relations_summary ++ "*Generado el: " ++ timestamp ++ "*" ++ nl ++ nl in
  relations_summary ++ "```mermaid" ++ nl ++ "erDiagram" ++ nl.

Definition render_relations (organized_schema : schema_map)
    (timestamp : string) : string :=
  let relations_summary := relations_header timestamp in
  let relations_summary := relations_entities organized_schema relations_summary in
  let relations_summary := relations_links organized_schema relations_summary in
  relations_summary ++ "```" ++ nl.

(** ** Statistics *)

Record table_stats : Type := TableStats {
  ts_name : string;
  ts_columns : nat;
  ts_has_primary_key : bool;
  ts_foreign_keys : nat;
  ts_unique_constraints : nat
}.

Record schema_stats : Type := SchemaStats {
  ss_tables : nat;
  ss_table_details : list table_stats
}.

Record stats : Type := Stats {
  st_timestamp : string;
  st_schemas : nat;
  st_tables : nat;
  st_columns : nat;
  st_schema_details : list (string * schema_stats)
}.

(** [table_data['primary_key'] is not None] *)
Definition is_not_None {A : Type} (v : option A) : bool :=
  match v with
  | Some _ => true
  | None => false
  end.

(** [d[k] = v] on a plain dictionary. *)
Fixpoint dict_set {V : Type} (k : string) (v : V) (d : list (string * V))
    : list (string * V) :=
  match d with
  | [] => [(k, v)]
  | (k', v') :: d' =>
      if String.eqb k k' then (k', v) :: d' else (k', v') :: dict_set k v d'
  end.

(** The first pair of loops: [(total_tables, total_columns)]. *)
Definition count_totals (organized_schema : schema_map) : nat * nat :=
  let schemas := keys organized_schema in
  fold_left
    (fun totals schema =>
       let tables := keys (dd_get [] schema organized_schema) in
       let total_tables := fst totals + List.length tables in
       let total_columns :=
         fold_left
           (fun total_columns table =>
              total_columns
              + List.length
                  (columns (dd_get new_table table
                                   (dd_get [] schema organized_schema))))
           tables (snd totals) in
       (total_tables, total_columns))
    schemas (0, 0).

Definition stats_of_table (table : string) (table_data : table_info)
    : table_stats :=
  TableStats table
             (List.length (columns table_data))
             (is_not_None (primary_key table_data))
             (List.length (foreign_keys table_data))
             (List.length (unique_constraints table_data)).

(** The second pair of loops: the value of [stats["schema_details"]]. *)
Definition schema_details_of (organized_schema : schema_map)
    : list (string * schema_stats) :=
  let schemas := keys organized_schema in
  fold_left
    (fun schema_details schema =>
       let tables := keys (dd_get [] schema organized_schema) in
       let schema_tables :=
         fold_left
           (fun schema_tables table =>
              let table_data :=
                dd_get new_table table (dd_get [] schema organized_schema) in
              (schema_tables ++ [stats_of_table table table_data])%list)
           tables [] in
       dict_set schema (SchemaStats (List.length tables) schema_tables)
                schema_details)
    schemas [].

Definition build_stats (organized_schema : schema_map) (timestamp : string)
    : stats :=
  let schemas := keys organized_schema in
  let totals := count_totals organized_schema in
  Stats timestamp (List.length schemas) (fst totals) (snd totals)
        (schema_details_of organized_schema).

(** ** [json.dump(stats, file, indent=2)] *)

Definition hex_digit (n : N) : ascii :=
  match String.get (N.to_nat n) "0123456789abcdef" with
  | Some c => c
  | None => "0"%char
  end.

(** ['\\u{0:04x}'.format(n)] *)
Definition u_escape (n : N) : string :=
  "\u"
  ++ String (hex_digit (N.modulo (N.shiftr n 12) 16))
       (String (hex_digit (N.modulo (N.shiftr n 8) 16))
          (String (hex_digit (N.modulo (N.shiftr n 4) 16))
             (String (hex_digit (N.modulo n 16)) EmptyString))).

(** Escape of one character outside the printable ASCII range, given by its
    code point; above the basic plane a surrogate pair is written. *)
Definition escape_code_point (n : N) : string :=
  if N.ltb n 65536 then u_escape n
  else
    let v := N.sub n 65536 in
    u_escape (N.lor 55296 (N.land (N.shiftr v 10) 1023))
    ++ u_escape (N.lor 56320 (N.land v 1023)).

Definition escape_ascii (c : ascii) : string :=
  let n := N_of_ascii c in
  if N.eqb n 34 then "\" ++ dquote
  else if N.eqb n 92 then "\\"
  else if N.eqb n 10 then "\n"
  else if N.eqb n 13 then "\r"
  else if N.eqb n 9 then "\t"
  else if N.eqb n 12 then "\f"
  else if N.eqb n 8 then "\b"
  else if N.leb 32 n && N.leb n 126 then String c EmptyString
  else u_escape n.

Definition continuation (c : ascii) : N := N.land (N_of_ascii c) 63.

(** The body of a JSON string with [ensure_ascii] on: the characters of the
    text are read off its UTF-8 bytes (on bytes that are not UTF-8 the
    result is of no significance). *)
Fixpoint encode_basestring_ascii (s : string) : string :=
  match s with
  | EmptyString => EmptyString
  | String c1 rest1 =>
      let b1 := N_of_ascii c1 in
      if N.ltb b1 128 then escape_ascii c1 ++ encode_basestring_ascii rest1
      else if N.ltb b1 224 then
        match rest1 with
        | String c2 rest2 =>
            escape_code_point
              (N.lor (N.shiftl (N.land b1 31) 6) (continuation c2))
            ++ encode_basestring_ascii rest2
        | _ => escape_code_point b1
        end
      else if N.ltb b1 240 then
        match rest1 with
        | String c2 (String c3 rest3) =>
            escape_code_point
              (N.lor (N.shiftl (N.land b1 15) 12)
                 (N.lor (N.shiftl (continuation c2) 6) (continuation c3)))
            ++ encode_basestring_ascii rest3
        | _ => escape_code_point b1
        end
      else
        match rest1 with
        | String c2 (String c3 (String c4 rest4)) =>
            escape_code_point
              (N.lor (N.shiftl (N.land b1 7) 18)
                 (N.lor (N.shiftl (continuation c2) 12)
                    (N.lor (N.shiftl (continuation c3) 6) (continuation c4))))
            ++ encode_basestring_ascii rest4
        | _ => escape_code_point b1
        end
  end.

Definition json_string (s : string) : string :=
  dquote ++ encode_basestring_ascii s ++ dquote.

(** The values [stats] is made of. *)
#[local] Unset Elimination Schemes.
Inductive json : Type :=
| JInt (n : nat)
| JBool (b : bool)
| JString (s : string)
| JList (items : list json)
| JDict (members : list (string * json)).
#[local] Set Elimination Schemes.

Fixpoint spaces (n : nat) : string :=
  match n with
  | O => EmptyString
  | S n' => String " "%char (spaces n')
  end.

(** ['\n' + indent * level] with [indent] two spaces. *)
Definition newline_indent (level : nat) : string := nl ++ spaces (2 * level).

Fixpoint dumps (level : nat) (j : json) : string :=
  match j with
  | JInt n => str_of_nat n
  | JBool b => if b then "true" else "false"
  | JString s => json_string s
  | JList [] => "[]"
  | JList items =>
      "[" ++ newline_indent (S level)
      ++ String.concat ("," ++ newline_indent (S level))
           (map (dumps (S level)) items)
      ++ newline_indent level ++ "]"
  | JDict [] => "{}"
  | JDict members =>
      "{" ++ newline_indent (S level)
      ++ String.concat ("," ++ newline_indent (S level))
           (map (fun member =>
                   json_string (fst member) ++ ": "
                   ++ dumps (S level) (snd member))
                members)
      ++ newline_indent level ++ "}"
  end.

Definition json_of_table_stats (t : table_stats) : json :=
  JDict [ ("name", JString (ts_name t));
          ("columns", JInt (ts_columns t));
          ("has_primary_key", JBool (ts_has_primary_key t));
          ("foreign_keys", JInt (ts_foreign_keys t));
          ("unique_constraints", JInt (ts_unique_constraints t)) ].

Definition json_of_schema_stats (s : schema_stats) : json :=
  JDict [ ("tables", JInt (ss_tables s));
          ("table_details", JList (map json_of_table_stats (ss_table_details s))) ].

Definition json_of_stats (st : stats) : json :=
  JDict [ ("timestamp", JString (st_timestamp st));
          ("schemas", JInt (st_schemas st));
          ("tables", JInt (st_tables st));
          ("columns", JInt (st_columns st));
          ("schema_details",
           JDict (map (fun entry => (fst entry, json_of_schema_stats (snd entry)))
                      (st_schema_details st))) ].

Definition render_stats (organized_schema : schema_map) (timestamp : string)
    : string :=
  dumps 0 (json_of_stats (build_stats organized_schema timestamp)).

(** ** The whole run *)

Record outputs : Type := Outputs {
  schema_summary_md : string;
  schema_relations_md : string;
  schema_stats_json : string
}.

(** [schema_data] is the parsed content of the input file and [timestamp]
    the formatted clock reading; the result is the content of the three
    files written, or the exception reported by the handler. *)
Definition analyze_schema (schema_data : list item) (timestamp : string)
    : result outputs :=
  organized_schema <- aggregate schema_data ;;
  let summary := render_summary organized_schema timestamp in
  let relations_summary := render_relations organized_schema timestamp in
  let stats := render_stats organized_schema timestamp in
  Ok (Outputs summary relations_summary stats).

Local Open Scope list_scope.

(** * Vocabulary of the properties *)

(** The rows read from the records, when every record has every key. *)
Fixpoint read_all (schema_data : list item) : result (list row) :=
  match schema_data with
  | [] => Ok []
  | it :: rest =>
      r <- read_item it ;;
      rs <- read_all rest ;;
      Ok (r :: rs)
  end.

Definition in_table (s t : string) (r : row) : bool :=
  String.eqb (schema r) s && String.eqb (table r) t.

Definition rows_of (s t : string) (rows : list row) : list row :=
  filter (in_table s t) rows.

Definition build_table (rows : list row) (td : table_info) : table_info :=
  fold_left (fun td r => add_row r td) rows td.

Definition table_or_new (o : option table_info) : table_info :=
  match o with
  | Some td => td
  | None => new_table
  end.

(** Both levels of the dictionary have pairwise distinct keys. *)
Definition well_keyed (org : schema_map) : Prop :=
  NoDup (keys org) /\ Forall (fun e => NoDup (keys (snd e))) org.

(** What one row contributes to each member of its table. *)
Definition fk_of_row (r : row) : list foreign_key :=
  if is_constraint r "FOREIGN KEY"
  then [ForeignKey (column r) (references_table r)] else [].

Definition unique_of_row (r : row) : list string :=
  if is_constraint r "UNIQUE" then [column r] else [].

Definition primary_key_after (pk : option string) (r : row) : option string :=
  if is_constraint r "PRIMARY KEY" then Some (column r) else pk.

(** The record that has every key, holding the values of a row. *)
Definition item_of_row (r : row) : item :=
  Item (Some (schema r)) (Some (table r)) (Some (column r))
       (Some (data_type r)) (Some (nullable r))
       (Some (constraint_type r)) (Some (references_table r)).

Definition required_fields : list string :=
  ["schema"; "table"; "column"; "data_type"; "nullable"; "constraint_type";
   "references_table"].

(** The required keys a record does not have, in the order of
    [required_fields]. *)
Definition missing_fields (it : item) : list string :=
  map fst
    (filter (fun entry => negb (snd entry))
       [ ("schema", is_not_None (item_schema it));
         ("table", is_not_None (item_table it));
         ("column", is_not_None (item_column it));
         ("data_type", is_not_None (item_data_type it));
         ("nullable", is_not_None (item_nullable it));
         ("constraint_type", is_not_None (item_constraint_type it));
         ("references_table", is_not_None (item_references_table it)) ]).

Definition has_all_fields (it : item) : Prop := missing_fields it = [].
Definition lacks_a_field (it : item) : Prop := missing_fields it <> [].

(** The (schema, table) pairs that are keys of the map. *)
Definition table_keys (org : schema_map) : list (string * string) :=
  flat_map (fun e => map (fun t => (fst e, t)) (keys (snd e))) org.

(** The text made of the given pieces, one after the other. *)
Definition text_of (pieces : list string) : string :=
  fold_right String.append EmptyString pieces.

(** A reference that splits into exactly two dot-separated parts, with the
    parts; [None] for any other reference and for no reference. *)
Definition two_parts (reference : option string) : option (string * string) :=
  match reference with
  | Some s =>
      match split_dot s with
      | [ref_schema; ref_table] => Some (ref_schema, ref_table)
      | _ => None
      end
  | None => None
  end.

(** The relationship lines of one foreign-key entry of table [s].[t]. *)
Definition link_lines (s t : string) (fk : foreign_key) : list string :=
  match two_parts (fk_references fk) with
  | Some (ref_schema, ref_table) =>
      [relation_line s t ref_schema ref_table (fk_column fk)]
  | None => []
  end.


(** The lines the relationship loops write, in the order they write them. *)
Definition relationship_lines (org : schema_map) : list string :=
  flat_map (fun s =>
    flat_map (fun t =>
      flat_map (link_lines s t)
               (foreign_keys (dd_get new_table t (dd_get [] s org))))
      (sorted (keys (dd_get [] s org))))
    (sorted (keys org)).

(** The fixed lines that open the section of a table in the summary. *)
Definition table_heading (t : string) : string :=
  ("### Tabla: " ++ t ++ nl ++ nl ++ "#### Columnas" ++ nl ++ nl
   ++ "| Nombre | Tipo | Nullable | Restricciones |" ++ nl
   ++ "|--------|------|----------|---------------|" ++ nl)%string.

Definition table_section (t : string) (td : table_info) : string :=
  (table_heading t ++ text_of (map (summary_row td) (columns td)) ++ nl)%string.

Definition schema_section (org : schema_map) (s : string) : string :=
  ("## Esquema: " ++ s ++ nl ++ nl ++ "Contiene "
   ++ str_of_nat (List.length (sorted (keys (dd_get [] s org))))
   ++ " tabla(s):" ++ nl ++ nl
   ++ text_of (map (fun t => table_section t (dd_get new_table t (dd_get [] s org)))
                   (sorted (keys (dd_get [] s org))))
   ++ nl)%string.

(** The entity declaration of one table in the diagram. *)
Definition entity_block (s t : string) (td : table_info) : string :=
  ("    " ++ s ++ "_" ++ t ++ " {" ++ nl
   ++ text_of (map (fun col => "        " ++ col_type col ++ " " ++ col_name col
                               ++ " " ++ pk_marker td col ++ nl)
                   (columns td))
   ++ "    }" ++ nl)%string.

Definition entity_blocks (org : schema_map) : list string :=
  flat_map (fun s =>
    map (fun t => entity_block s t (dd_get new_table t (dd_get [] s org)))
        (sorted (keys (dd_get [] s org))))
    (sorted (keys org)).

(** A text whose characters are printable ASCII other than the quotation
    mark and the backslash, such as a formatted date and time. *)
Definition plain_char (c : ascii) : bool :=
  let n := N_of_ascii c in
  N.leb 32 n && N.leb n 126 && negb (N.eqb n 34) && negb (N.eqb n 92).

Fixpoint plain_text (s : string) : bool :=
  match s with
  | EmptyString => true
  | String c rest => plain_char c && plain_text rest
  end.

(** The members of the statistics object that follow the timestamp. *)
Definition stats_members_after_timestamp (org : schema_map)
    : list (string * json) :=
  match json_of_stats (build_stats org EmptyString) with
  | JDict (_ :: members) => members
  | _ => []
  end.


(** The labels a column gets from the primary key and the unique list. *)
Definition key_labels (td : table_info) (col : column_info) : list string :=
  (if same_as_primary_key (col_name col) (primary_key td)
   then ["PRIMARY KEY"] else [])
  ++ (if existsb (String.eqb (col_name col)) (unique_constraints td)
      then ["UNIQUE"] else []).

(** ** Sample inputs *)

Definition mk_item (s t c ty n : string) (ct rt : option string) : item :=
  Item (Some s) (Some t) (Some c) (Some ty) (Some n) (Some ct) (Some rt).

(** The example of the documentation: one primary-key column. *)
Definition users_id : item :=
  mk_item "public" "users" "id" "uuid" "NOT NULL" (Some "PRIMARY KEY") None.

(** A column that is reported twice, once per constraint it carries. *)
Definition repeated_column : list item :=
  [ mk_item "public" "users" "id" "uuid" "NOT NULL" (Some "PRIMARY KEY") None;
    mk_item "public" "users" "id" "uuid" "NOT NULL" (Some "UNIQUE") None ].

Definition sample_data : list item :=
  [ users_id;
    mk_item "public" "posts" "user_id" "uuid" "NULL"
            (Some "FOREIGN KEY") (Some "public.users");
    mk_item "auth" "keys" "k" "text" "NULL" (Some "UNIQUE") None;
    mk_item "public" "posts" "legacy_id" "int4" "NULL" (Some "FOREIGN KEY") None;
    mk_item "public" "posts" "id" "uuid" "NOT NULL" (Some "PRIMARY KEY") None ].

Definition sample_org : schema_map :=
  Eval vm_compute in
    match aggregate sample_data with
    | Ok org => org
    | Raise _ => []
    end.

Definition sample_timestamp : string := "2024-01-02 03:04:05".




(** * Vocabulary of the further properties *)

(** The records of table [s].[t] and the records carrying a constraint. *)
Definition item_in_table (s t : string) (it : item) : bool :=
  match item_schema it, item_table it with
  | Some s', Some t' => String.eqb s' s && String.eqb t' t
  | _, _ => false
  end.

Definition item_has_constraint (kind : string) (it : item) : bool :=
  match item_constraint_type it with
  | Some (Some c) => String.eqb c kind
  | _ => false
  end.

Definition item_in_schema (s : string) (it : item) : bool :=
  match item_schema it with
  | Some s' => String.eqb s' s
  | None => false
  end.

(** The distinct elements of a list, in the order of their first
    occurrence. *)
Definition note_seen (seen : list string) (x : string) : list string :=
  if in_dec string_dec x seen then seen else seen ++ [x].

Definition first_occurrences (l : list string) : list string :=
  fold_left note_seen l [].

(** The per-table records of the statistics, all schemas together. *)
Definition all_table_stats (st : stats) : list table_stats :=
  flat_map (fun e => ss_table_details (snd e)) (st_schema_details st).

(** The sum over all tables of a map of a per-table measure. *)
Definition total_over_tables (measure : table_info -> nat) (org : schema_map)
    : nat :=
  list_sum (map (fun e => list_sum (map (fun e' => measure (snd e')) (snd e))) org).

(** The schema names of the records, and the table names of the records of
    one schema, in input order with repetitions. *)
Definition schemas_of (schema_data : list item) : list string :=
  flat_map (fun it => match item_schema it with
                      | Some s => [s]
                      | None => []
                      end) schema_data.

Definition tables_of (s : string) (schema_data : list item) : list string :=
  flat_map (fun it => match item_table it with
                      | Some t => [t]
                      | None => []
                      end)
           (filter (item_in_schema s) schema_data).

(** The number of full stops of a string. *)
Fixpoint dots (s : string) : nat :=
  match s with
  | EmptyString => 0
  | String c rest => (if Ascii.eqb c "."%char then 1 else 0) + dots rest
  end.

(** [sample_data] with the records of different tables interleaved in
    another way. *)
Definition sample_data_reordered : list item :=
  [ mk_item "auth" "keys" "k" "text" "NULL" (Some "UNIQUE") None;
    mk_item "public" "posts" "user_id" "uuid" "NULL"
            (Some "FOREIGN KEY") (Some "public.users");
    mk_item "public" "posts" "legacy_id" "int4" "NULL" (Some "FOREIGN KEY") None;
    users_id;
    mk_item "public" "posts" "id" "uuid" "NOT NULL" (Some "PRIMARY KEY") None ].

Definition sample_org_reordered : schema_map :=
  Eval vm_compute in
    match aggregate sample_data_reordered with
    | Ok org => org
    | Raise _ => []
    end.

(** A text of printable ASCII characters and line feeds. *)
Definition ascii_char (c : ascii) : bool :=
  let n := N_of_ascii c in
  (N.leb 32 n && N.leb n 126) || N.eqb n 10.

Fixpoint ascii_text (s : string) : bool :=
  match s with
  | EmptyString => true
  | String c rest => ascii_char c && ascii_text rest
  end.

(** The nesting depth of a value. *)
Fixpoint depth (j : json) : nat :=
  match j with
  | JList items => S (list_max (map depth items))
  | JDict members => S (list_max (map (fun member => depth (snd member)) members))
  | _ => 0
  end.

(** * Reading the input text *)

(** The characters of a text.  A Python [str] is a sequence of code points;
    here each is the string of its UTF-8 bytes.  (Bytes that are not UTF-8
    do not occur in a [str]; a truncated last sequence is kept whole.) *)
Fixpoint characters (s : string) : list string :=
  match s with
  | EmptyString => []
  | String c1 rest1 =>
      let b1 := N_of_ascii c1 in
      if N.ltb b1 128 then String c1 EmptyString :: characters rest1
      else if N.ltb b1 224 then
        match rest1 with
        | String c2 rest2 =>
            String c1 (String c2 EmptyString) :: characters rest2
        | _ => [String c1 rest1]
        end
      else if N.ltb b1 240 then
        match rest1 with
        | String c2 (String c3 rest3) =>
            String c1 (String c2 (String c3 EmptyString)) :: characters rest3
        | _ => [String c1 rest1]
        end
      else
        match rest1 with
        | String c2 (String c3 (String c4 rest4)) =>
            String c1 (String c2 (String c3 (String c4 EmptyString)))
            :: characters rest4
        | _ => [String c1 rest1]
        end
  end.

Definition utf8 (bytes : list nat) : string :=
  string_of_list_ascii (map ascii_of_nat bytes).

(** The characters [\s] matches in a [str] pattern: the Unicode white
    space U+0009 to U+000D, U+001C to U+0020, U+0085, U+00A0, U+1680,
    U+2000 to U+200A, U+2028, U+2029, U+202F, U+205F and U+3000. *)
Definition whitespace : list string :=
  map utf8
    [ [9]; [10]; [11]; [12]; [13]; [28]; [29]; [30]; [31]; [32];
      [194; 133]; [194; 160]; [225; 154; 128];
      [226; 128; 128]; [226; 128; 129]; [226; 128; 130]; [226; 128; 131];
      [226; 128; 132]; [226; 128; 133]; [226; 128; 134]; [226; 128; 135];
      [226; 128; 136]; [226; 128; 137]; [226; 128; 138];
      [226; 128; 168]; [226; 128; 169]; [226; 128; 175]; [226; 129; 159];
      [227; 128; 128] ].

Definition is_space (ch : string) : bool := existsb (String.eqb ch) whitespace.

(** [[\s\S]]: any character. *)
Definition any_character (ch : string) : bool := true.

(** The constructs of the pattern: a literal character, and a character
    class under the greedy star. *)
Inductive atom : Type :=
| Lit (ch : string)
| Star (class : string -> bool).

(** [r'\[\s*\{[\s\S]*\}\s*\]'] *)
Definition json_array_pattern : list atom :=
  [ Lit "["%string; Star is_space; Lit "{"%string; Star any_character;
    Lit "}"%string; Star is_space; Lit "]"%string ].

(** Matching a pattern at the head of a text, by backtracking: a star first
    takes as many characters as it can and gives them back one by one
    until the rest of the pattern matches.  The result is the text left
    after the match. *)
Fixpoint match_here (p : list atom) : list string -> option (list string) :=
  match p with
  | [] => fun l => Some l
  | Lit c :: p' =>
      fun l =>
        match l with
        | ch :: l' => if String.eqb ch c then match_here p' l' else None
        | [] => None
        end
  | Star class :: p' =>
      fix star (l : list string) : option (list string) :=
        match l with
        | ch :: l' =>
            if class ch then
              match star l' with
              | Some rest => Some rest
              | None => match_here p' l
              end
            else match_here p' l
        | [] => match_here p' []
        end
  end.

(** [re.search]: the match at the leftmost position that has one; the
    result is the text skipped and the text matched. *)
Fixpoint re_search (p : list atom) (l : list string)
    : option (list string * list string) :=
  match match_here p l with
  | Some rest => Some ([], firstn (List.length l - List.length rest) l)
  | None =>
      match l with
      | [] => None
      | ch :: l' =>
          match re_search p l' with
          | Some (skipped, matched) => Some (ch :: skipped, matched)
          | None => None
          end
      end
  end.

(** [json_match.group(0)] when the search finds a match. *)
Definition extract_json (schema_content : string) : option string :=
  match re_search json_array_pattern (characters schema_content) with
  | Some (_, matched) => Some (text_of matched)
  | None => None
  end.

Inductive load_error : Type :=
| JSONDecodeError
| ValueError (message : string).

Inductive loaded (J : Type) : Type :=
| Loaded (schema_data : J)
| LoadFailed (e : load_error).

Arguments Loaded {J} schema_data.
Arguments LoadFailed {J} e.

(** The parse of the file content.  [json_loads] stands for [json.loads],
    with [None] for [JSONDecodeError]; [J] is the type of what it returns. *)
Definition load_schema_data {J : Type} (json_loads : string -> option J)
    (schema_content : string) : loaded J :=
  match json_loads schema_content with
  | Some schema_data => Loaded schema_data
  | None =>
      match extract_json schema_content with
      | Some group0 =>
          match json_loads group0 with
          | Some schema_data => Loaded schema_data
          | None => LoadFailed JSONDecodeError
          end
      | None =>
          LoadFailed (ValueError "No se pudo extraer JSON válido del archivo")
      end
  end.

(** The text matched by the pattern: an opening bracket, white space, an
    opening brace, any text, a closing brace, white space, a closing
    bracket. *)
Definition array_of_objects (ws1 body ws2 : list string) : list string :=
  "["%string :: ws1 ++ "{"%string :: body ++ "}"%string :: ws2 ++ ["]"%string].

Definition wrapped_sample : string :=
  ("Result: [ {" ++ dquote ++ "schema" ++ dquote ++ ": 1} ] (1 row)")%string.

(** The end of the pattern, from the closing brace on. *)
Definition closing : list atom :=
  [Lit "}"%string; Star is_space; Lit "]"%string].

(** The texts a pattern matches. *)
Inductive matches : list atom -> list string -> Prop :=
| matches_nil : matches [] []
| matches_lit (c : string) (p : list atom) (l : list string) :
    matches p l -> matches (Lit c :: p) (c :: l)
| matches_star (class : string -> bool) (p : list atom) (taken l : list string) :
    Forall (fun ch => class ch = true) taken ->
    matches p l -> matches (Star class :: p) (taken ++ l).

(** A character whose byte sequence has the length its first byte
    announces. *)
Definition whole_character (ch : string) : bool :=
  match ch with
  | EmptyString => false
  | String c1 rest =>
      let b1 := N_of_ascii c1 in
      Nat.eqb (String.length rest)
              (if N.ltb b1 128 then 0
               else if N.ltb b1 224 then 1
               else if N.ltb b1 240 then 2 else 3)
  end.

(** A stand-in for [json.loads] in examples: it accepts the texts that
    start with an opening bracket and returns them unparsed. *)
Definition accept_bracketed (s : string) : option string :=
  if String.prefix "[" s then Some s else None.

(** The constraint labels of a column name, read off the records of its
    table: the last PRIMARY KEY record decides the primary key, any UNIQUE
    record of the name gives UNIQUE, the first FOREIGN KEY record of the name
    gives the reference. *)
Definition labels_of_records (records : list row) (name : string) : list string :=
  (if same_as_primary_key name (fold_left primary_key_after records None)
   then ["PRIMARY KEY"] else [])
  ++ (if existsb (fun r => is_constraint r "UNIQUE" && String.eqb name (column r))
                 records
      then ["UNIQUE"] else [])
  ++ match find (fun r => is_constraint r "FOREIGN KEY"
                          && String.eqb (column r) name) records with
     | Some r => [("FK → " ++ str_of_optional (references_table r))%string]
     | None => []
     end.

(** * Properties *)

(** ** Dictionaries in insertion order *)

Section Defaultdict.
Context {V : Type} (dflt : V).
Implicit Types (d : defaultdict V) (k : string) (f : V -> V).

Lemma lookup_None_keys d k : lookup k d = None <-> ~ In k (keys d).
Proof.
  induction d as [|[k' v] d IH]; simpl.
  - tauto.
  - destruct (String.eqb_spec k k') as [->|Hne].
    + split; [discriminate | intros H; exfalso; apply H; now left].
    + rewrite IH. split.
      * intros H [E|HIn]; [congruence | tauto].
      * intros H HIn. apply H. now right.
Qed.

Lemma lookup_Some_In d k v : lookup k d = Some v -> In (k, v) d.
Proof.
  induction d as [|[k' v'] d IH]; simpl; [discriminate|].
  destruct (String.eqb_spec k k') as [->|Hne].
  - intros [= ->]. now left.
  - intros H. right. auto.
Qed.

Lemma In_lookup_Some d k v :
  NoDup (keys d) -> In (k, v) d -> lookup k d = Some v.
Proof.
  induction d as [|[k' v'] d IH]; simpl; [tauto|].
  intros Hnd [E|HIn].
  - injection E as -> ->. now rewrite String.eqb_refl.
  - inversion Hnd as [|? ? Hnotin Hnd']; subst.
    destruct (String.eqb_spec k k') as [->|Hne].
    + exfalso. apply Hnotin. change k' with (fst (k', v)).
      now apply in_map.
    + auto.
Qed.

Lemma lookup_dd_modify_same d k f :
  lookup k (dd_modify dflt k f d) = Some (f (dd_get dflt k d)).
Proof.
  unfold dd_get. induction d as [|[k' v] d IH]; simpl.
  - now rewrite String.eqb_refl.
  - destruct (String.eqb_spec k k') as [->|Hne]; simpl.
    + now rewrite String.eqb_refl.
    + destruct (String.eqb_spec k k'); [contradiction | exact IH].
Qed.

Lemma lookup_dd_modify_other d k k' f :
  k' <> k -> lookup k' (dd_modify dflt k f d) = lookup k' d.
Proof.
  intros Hne. induction d as [|[k0 v] d IH]; simpl.
  - destruct (String.eqb_spec k' k); [contradiction | reflexivity].
  - destruct (String.eqb_spec k k0) as [->|Hne0]; simpl.
    + destruct (String.eqb_spec k' k0); [contradiction | reflexivity].
    + now rewrite IH.
Qed.

Lemma keys_dd_modify d k f :
  keys (dd_modify dflt k f d)
  = if in_dec string_dec k (keys d) then keys d else keys d ++ [k].
Proof.
  induction d as [|[k' v] d IH]; simpl; [reflexivity|].
  destruct (String.eqb_spec k k') as [->|Hne]; simpl.
  - destruct (string_dec k' k'); [reflexivity | contradiction].
  - rewrite IH. destruct (string_dec k' k); [congruence|].
    now destruct (in_dec string_dec k (keys d)).
Qed.

Lemma NoDup_keys_dd_modify d k f :
  NoDup (keys d) -> NoDup (keys (dd_modify dflt k f d)).
Proof.
  intros Hnd. rewrite keys_dd_modify.
  destruct (in_dec string_dec k (keys d)) as [|Hnotin]; [assumption|].
  apply NoDup_rev in Hnd. rewrite <- (rev_involutive (keys d ++ [k])).
  apply NoDup_rev. rewrite rev_app_distr. simpl. constructor; [|assumption].
  now rewrite <- in_rev.
Qed.

Lemma Forall_values_dd_modify (Q : V -> Prop) d k f :
  Q (f dflt) -> (forall v, Q v -> Q (f v)) ->
  Forall (fun e => Q (snd e)) d ->
  Forall (fun e => Q (snd e)) (dd_modify dflt k f d).
Proof.
  intros Hd Hf. induction d as [|[k' v] d IH]; simpl; intros HF.
  - constructor; [exact Hd | constructor].
  - inversion HF as [|? ? Hv HF']; subst. simpl in Hv.
    destruct (String.eqb k k'); constructor; simpl; auto.
Qed.

End Defaultdict.

(** ** Aggregation *)

Lemma organize_read_all (schema_data : list item) (org : schema_map) :
  organize org schema_data
  = (rows <- read_all schema_data ;; Ok (fold_left store_row rows org)).
Proof.
  revert org. induction schema_data as [|it rest IH]; intros org; simpl.
  - reflexivity.
  - destruct (read_item it) as [r|e]; simpl; [|reflexivity].
    rewrite IH. now destruct (read_all rest).
Qed.

Lemma aggregate_rows (schema_data : list item) (org : schema_map) :
  aggregate schema_data = Ok org ->
  exists rows, read_all schema_data = Ok rows /\ org = fold_left store_row rows [].
Proof.
  unfold aggregate. rewrite organize_read_all.
  destruct (read_all schema_data) as [rows|e]; simpl; [|discriminate].
  intros [= <-]. now exists rows.
Qed.

Lemma well_keyed_store_row (org : schema_map) (r : row) :
  well_keyed org -> well_keyed (store_row org r).
Proof.
  intros [Hs Ht]. split.
  - now apply NoDup_keys_dd_modify.
  - apply (Forall_values_dd_modify [] (fun tables => NoDup (keys tables))).
    + simpl. constructor; [tauto | constructor].
    + intros tables. apply NoDup_keys_dd_modify.
    + exact Ht.
Qed.

Lemma well_keyed_fold (rows : list row) (org : schema_map) :
  well_keyed org -> well_keyed (fold_left store_row rows org).
Proof.
  revert org. induction rows as [|r rows IH]; intros org H; simpl.
  - exact H.
  - apply IH. now apply well_keyed_store_row.
Qed.

Lemma well_keyed_aggregate (schema_data : list item) (org : schema_map) :
  aggregate schema_data = Ok org -> well_keyed org.
Proof.
  intros H. destruct (aggregate_rows _ _ H) as (rows & _ & ->).
  apply well_keyed_fold. split; constructor.
Qed.

Lemma dd_get_table (s t : string) (org : schema_map) :
  dd_get new_table t (dd_get [] s org) = table_or_new (lookup_table s t org).
Proof.
  unfold dd_get, lookup_table, table_or_new.
  destruct (lookup s org); reflexivity.
Qed.

Lemma lookup_table_store_row (s t : string) (org : schema_map) (r : row) :
  lookup_table s t (store_row org r)
  = if in_table s t r
    then Some (add_row r (table_or_new (lookup_table s t org)))
    else lookup_table s t org.
Proof.
  unfold store_row, in_table.
  destruct (String.eqb_spec (schema r) s) as [<-|Hs]; simpl.
  - unfold lookup_table at 1. rewrite lookup_dd_modify_same.
    destruct (String.eqb_spec (table r) t) as [<-|Ht].
    + now rewrite lookup_dd_modify_same, dd_get_table.
    + rewrite lookup_dd_modify_other by congruence.
      unfold lookup_table, dd_get. now destruct (lookup (schema r) org).
  - unfold lookup_table. now rewrite lookup_dd_modify_other by congruence.
Qed.

Lemma lookup_table_fold (s t : string) (rows : list row) (org : schema_map) :
  lookup_table s t (fold_left store_row rows org)
  = match rows_of s t rows with
    | [] => lookup_table s t org
    | _ :: _ =>
        Some (build_table (rows_of s t rows) (table_or_new (lookup_table s t org)))
    end.
Proof.
  revert org. induction rows as [|r rows IH]; intros org; simpl.
  - reflexivity.
  - rewrite IH, lookup_table_store_row.
    destruct (in_table s t r); simpl.
    + now destruct (rows_of s t rows).
    + reflexivity.
Qed.

Lemma lookup_table_aggregate (s t : string) (rows : list row) :
  lookup_table s t (fold_left store_row rows [])
  = match rows_of s t rows with
    | [] => None
    | _ :: _ => Some (build_table (rows_of s t rows) new_table)
    end.
Proof. now rewrite lookup_table_fold. Qed.

Lemma is_constraint_exclusive (r : row) (k1 k2 : string) :
  is_constraint r k1 = true -> String.eqb k1 k2 = false ->
  is_constraint r k2 = false.
Proof.
  unfold is_constraint. destruct (constraint_type r) as [c|]; [|reflexivity].
  intros H1 H2. apply String.eqb_eq in H1. now subst.
Qed.

Lemma add_row_members (r : row) (td : table_info) :
  columns (add_row r td) = columns td ++ [column_of_row r]
  /\ primary_key (add_row r td) = primary_key_after (primary_key td) r
  /\ foreign_keys (add_row r td) = foreign_keys td ++ fk_of_row r
  /\ unique_constraints (add_row r td) = unique_constraints td ++ unique_of_row r.
Proof.
  unfold add_row, add_constraint, primary_key_after, fk_of_row, unique_of_row.
  destruct (is_constraint r "PRIMARY KEY") eqn:Hpk.
  - rewrite (is_constraint_exclusive r _ "FOREIGN KEY" Hpk eq_refl).
    rewrite (is_constraint_exclusive r _ "UNIQUE" Hpk eq_refl).
    simpl. now rewrite !app_nil_r.
  - destruct (is_constraint r "FOREIGN KEY") eqn:Hfk.
    + rewrite (is_constraint_exclusive r _ "UNIQUE" Hfk eq_refl).
      simpl. now rewrite !app_nil_r.
    + destruct (is_constraint r "UNIQUE"); simpl; now rewrite !app_nil_r.
Qed.

Lemma build_table_members (rows : list row) (td : table_info) :
  columns (build_table rows td) = columns td ++ map column_of_row rows
  /\ primary_key (build_table rows td)
     = fold_left primary_key_after rows (primary_key td)
  /\ foreign_keys (build_table rows td)
     = foreign_keys td ++ flat_map fk_of_row rows
  /\ unique_constraints (build_table rows td)
     = unique_constraints td ++ flat_map unique_of_row rows.
Proof.
  revert td. induction rows as [|r rows IH]; intros td; simpl.
  - now rewrite !app_nil_r.
  - destruct (IH (add_row r td)) as (Hc & Hp & Hf & Hu).
    destruct (add_row_members r td) as (Hc' & Hp' & Hf' & Hu').
    unfold build_table in *. rewrite Hc, Hp, Hf, Hu, Hc', Hp', Hf', Hu'.
    now rewrite <- !app_assoc.
Qed.

(** ** Records and rows *)

Lemma missing_fields_required (it : item) (key : string) :
  In key (missing_fields it) -> In key required_fields.
Proof.
  unfold missing_fields. intros H. apply in_map_iff in H.
  destruct H as (entry & <- & H). apply filter_In in H. destruct H as [H _].
  simpl in H. unfold required_fields. simpl.
  repeat (destruct H as [<-|H]; [simpl; tauto|]). destruct H.
Qed.

Lemma read_item_missing (it : item) :
  match missing_fields it with
  | [] => exists r, read_item it = Ok r
  | key :: _ => read_item it = Raise (KeyError key)
  end.
Proof.
  destruct it as [[s|] [t|] [c|] [ty|] [n|] [ct|] [rt|]];
    cbn; try reflexivity.
  eexists. reflexivity.
Qed.

Lemma read_item_Ok (it : item) (r : row) :
  read_item it = Ok r <-> it = item_of_row r.
Proof.
  split.
  - destruct it as [[s|] [t|] [c|] [ty|] [n|] [ct|] [rt|]];
      cbn; try discriminate.
    now intros [= <-].
  - intros ->. now destruct r.
Qed.

Lemma read_all_Ok (schema_data : list item) (rows : list row) :
  read_all schema_data = Ok rows <-> schema_data = map item_of_row rows.
Proof.
  revert rows. induction schema_data as [|it rest IH]; intros rows; simpl.
  - split.
    + now intros [= <-].
    + destruct rows; [reflexivity | discriminate].
  - split.
    + destruct (read_item it) as [r|e] eqn:Hr; simpl; [|discriminate].
      destruct (read_all rest) as [rs|e] eqn:Hrs; simpl; [|discriminate].
      intros [= <-]. simpl. f_equal.
      * now apply read_item_Ok.
      * now apply IH.
    + destruct rows as [|r rs]; [discriminate|]. simpl. intros [= -> Hrest].
      rewrite (proj2 (read_item_Ok _ r) eq_refl). simpl.
      now rewrite (proj2 (IH rs) Hrest).
Qed.

Lemma aggregate_item_of_row (rows : list row) :
  aggregate (map item_of_row rows) = Ok (fold_left store_row rows []).
Proof.
  unfold aggregate. rewrite organize_read_all.
  now rewrite (proj2 (read_all_Ok _ rows) eq_refl).
Qed.

Lemma organize_missing (schema_data : list item) (org : schema_map) :
  (Forall has_all_fields schema_data /\ exists org', organize org schema_data = Ok org')
  \/ (Exists lacks_a_field schema_data
      /\ exists key, In key required_fields
                     /\ organize org schema_data = Raise (KeyError key)).
Proof.
  revert org. induction schema_data as [|it rest IH]; intros org; simpl.
  - left. split; [constructor | now exists org].
  - pose proof (read_item_missing it) as Hit.
    destruct (missing_fields it) as [|key ks] eqn:Hm.
    + destruct Hit as [r ->]. simpl.
      destruct (IH (store_row org r)) as [[HF Hok]|[HE Herr]].
      * left. split; [now constructor | exact Hok].
      * right. split; [now apply Exists_cons_tl | exact Herr].
    + rewrite Hit. simpl. right. split.
      * apply Exists_cons_hd. unfold lacks_a_field. now rewrite Hm.
      * exists key. split; [|reflexivity].
        apply (missing_fields_required it). rewrite Hm. now left.
Qed.

(** ** Keys of the aggregated map *)

Lemma In_table_keys (org : schema_map) (s t : string) :
  well_keyed org ->
  In (s, t) (table_keys org) <-> lookup_table s t org <> None.
Proof.
  intros [Hs Ht]. unfold table_keys, lookup_table. rewrite in_flat_map. split.
  - intros ([s' tables] & HIn & Hmap). simpl in Hmap.
    apply in_map_iff in Hmap. destruct Hmap as (t' & [= -> ->] & Hk).
    rewrite (In_lookup_Some org s tables Hs HIn).
    intros Hn. apply lookup_None_keys in Hn. contradiction.
  - destruct (lookup s org) as [tables|] eqn:Hl; [|congruence].
    intros Hne. exists (s, tables). split.
    + now apply lookup_Some_In.
    + simpl. apply in_map. destruct (in_dec string_dec t (keys tables)); [assumption|].
      exfalso. apply Hne. now apply lookup_None_keys.
Qed.

Lemma NoDup_table_keys (org : schema_map) :
  well_keyed org -> NoDup (table_keys org).
Proof.
  intros [Hs Ht]. induction org as [|[s tables] org IH]; simpl.
  - constructor.
  - inversion Hs as [|? ? Hnotin Hs']; subst.
    inversion Ht as [|? ? Htab Ht']; subst. simpl in Htab.
    apply NoDup_app.
    + apply Injective_map_NoDup; [|assumption].
      intros t1 t2 [= ->]. reflexivity.
    + now apply IH.
    + intros [s' t'] H1 H2. apply in_map_iff in H1.
      destruct H1 as (t0 & [= <- <-] & _).
      apply in_flat_map in H2. destruct H2 as ([s2 tables2] & HIn & Hm).
      simpl in Hm. apply in_map_iff in Hm. destruct Hm as (t2 & [= -> ->] & _).
      apply Hnotin. change s with (fst (s, tables2)). now apply in_map.
Qed.

Lemma rows_of_nonempty (s t : string) (rows : list row) :
  rows_of s t rows <> [] <->
  exists r, In r rows /\ schema r = s /\ table r = t.
Proof.
  unfold rows_of. split.
  - destruct (filter (in_table s t) rows) as [|r rs] eqn:Hf; [congruence|].
    intros _. exists r.
    assert (H : In r (filter (in_table s t) rows)) by (rewrite Hf; now left).
    apply filter_In in H. destruct H as [HIn Hb]. unfold in_table in Hb.
    apply andb_true_iff in Hb. destruct Hb as [H1 H2].
    apply String.eqb_eq in H1, H2. auto.
  - intros (r & HIn & <- & <-) Hnil.
    assert (H : In r (filter (in_table (schema r) (table r)) rows)).
    { apply filter_In. split; [assumption|]. unfold in_table.
      now rewrite !String.eqb_refl. }
    rewrite Hnil in H. destruct H.
Qed.

(** A valid input is the list of records of some rows, and its aggregate is
    the fold of [store_row] over them. *)
Ltac rows_of_input H rows Hrows :=
  destruct (aggregate_rows _ _ H) as (rows & Hrows & ->);
  apply read_all_Ok in Hrows.

(** ** The documented example *)

Example users_id_aggregate :
  aggregate [users_id]
  = Ok [("public", [("users", Table [Column "id" "uuid" false] (Some "id") [] [])])].
Proof. reflexivity. Qed.

Example users_id_stats :
  match aggregate [users_id] with
  | Ok org => build_stats org sample_timestamp
  | Raise _ => Stats EmptyString 0 0 0 []
  end
  = Stats sample_timestamp 1 1 1
          [("public", SchemaStats 1 [TableStats "users" 1 true 0 0])].
Proof. reflexivity. Qed.

Example users_id_summary :
  match aggregate [users_id] with
  | Ok org => render_summary org "T"
  | Raise _ => EmptyString
  end
  = "# Resumen del Esquema de Base de Datos

*Generado el: T*

## Esquema: public

Contiene 1 tabla(s):

### Tabla: users

#### Columnas

| Nombre | Tipo | Nullable | Restricciones |
|--------|------|----------|---------------|
| id | uuid | No | PRIMARY KEY |


"%string.
Proof. reflexivity. Qed.

Example users_id_relations :
  match aggregate [users_id] with
  | Ok org => render_relations org "T"
  | Raise _ => EmptyString
  end
  = "# Relaciones entre Tablas

*Generado el: T*

```mermaid
erDiagram
    public_users {
        uuid id PK
    }
```
"%string.
Proof. reflexivity. Qed.

Example missing_table_key :
  analyze_schema
    [users_id;
     Item (Some "public") None (Some "id") (Some "uuid") (Some "NULL")
          (Some None) None]
    sample_timestamp
  = Raise (KeyError "table").
Proof. reflexivity. Qed.

Example escapes_of_json_string :
  json_string ("é→" ++ dquote ++ "\" ++ nl)%string
  = (dquote ++ "\u00e9\u2192\" ++ dquote ++ "\\\n" ++ dquote)%string.
Proof. reflexivity. Qed.

(** ** Claims on the aggregation *)


Lemma In_map_item_of_row (rows : list row) (s t : string) :
  (exists r, In r rows /\ schema r = s /\ table r = t)
  <-> (exists it, In it (map item_of_row rows)
                  /\ item_schema it = Some s /\ item_table it = Some t).
Proof.
  split.
  - intros (r & HIn & <- & <-). exists (item_of_row r).
    split; [now apply in_map | now split].
  - intros (it & HIn & Hs & Ht). apply in_map_iff in HIn.
    destruct HIn as (r & <- & HIn). simpl in Hs, Ht.
    exists r. split; [assumption | split; congruence].
Qed.

(** C6: for a valid input, the keys of the aggregated map are pairwise
    distinct at both levels, and the (schema, table) pairs that are keys are
    exactly those occurring in the input. *)
Theorem C6_keys_are_the_input_pairs (schema_data : list item) (org : schema_map) :
  aggregate schema_data = Ok org ->
  NoDup (table_keys org)
  /\ NoDup (keys org)
  /\ Forall (fun e => NoDup (keys (snd e))) org
  /\ forall s t,
       In (s, t) (table_keys org)
       <-> exists it, In it schema_data
                      /\ item_schema it = Some s /\ item_table it = Some t.
Proof.
  intros H. pose proof (well_keyed_aggregate _ _ H) as Hwk.
  rows_of_input H rows Hrows. subst schema_data.
  split; [now apply NoDup_table_keys|]. destruct Hwk as [Hs Ht].
  split; [assumption|]. split; [assumption|]. intros s t.
  rewrite In_table_keys by now split.
  rewrite lookup_table_aggregate, <- In_map_item_of_row, <- rows_of_nonempty.
  destruct (rows_of s t rows); split; congruence.
Qed.

Lemma C6_keys_witness :
  NoDup (table_keys sample_org)
  /\ NoDup (keys sample_org)
  /\ Forall (fun e => NoDup (keys (snd e))) sample_org
  /\ forall s t,
       In (s, t) (table_keys sample_org)
       <-> exists it, In it sample_data
                      /\ item_schema it = Some s /\ item_table it = Some t.
Proof. exact (C6_keys_are_the_input_pairs sample_data sample_org eq_refl). Defined.

Lemma fold_primary_key_unchanged (rows : list row) (pk : option string) :
  Forall (fun r => is_constraint r "PRIMARY KEY" = false) rows ->
  fold_left primary_key_after rows pk = pk.
Proof.
  revert pk. induction rows as [|r rows IH]; intros pk HF; simpl.
  - reflexivity.
  - inversion HF as [|? ? Hr HF']; subst.
    unfold primary_key_after at 2. rewrite Hr. now apply IH.
Qed.

Lemma is_constraint_item (r : row) (kind : string) :
  is_constraint r kind = true
  <-> item_constraint_type (item_of_row r) = Some (Some kind).
Proof.
  unfold is_constraint. simpl. destruct (constraint_type r) as [c|].
  - rewrite String.eqb_eq. split; congruence.
  - split; congruence.
Qed.

Lemma in_table_item (s t : string) (r : row) :
  in_table s t r = true
  <-> item_schema (item_of_row r) = Some s /\ item_table (item_of_row r) = Some t.
Proof.
  unfold in_table. simpl. rewrite andb_true_iff, !String.eqb_eq.
  split; intros [H1 H2]; split; congruence.
Qed.

(** C4: a record with constraint type PRIMARY KEY sets the primary key of its
    table to its column name, and of several such records of one table the
    last one decides: after the whole input is processed the stored primary
    key is the column of the last PRIMARY KEY record of the table. *)
Theorem C4_primary_key_last_write_wins
    (before after : list item) (it : item) (s t c : string) (org : schema_map) :
  aggregate (before ++ it :: after) = Ok org ->
  item_schema it = Some s -> item_table it = Some t ->
  item_column it = Some c ->
  item_constraint_type it = Some (Some "PRIMARY KEY") ->
  Forall (fun it' => ~ (item_schema it' = Some s /\ item_table it' = Some t
                        /\ item_constraint_type it' = Some (Some "PRIMARY KEY")))
         after ->
  exists td, lookup_table s t org = Some td /\ primary_key td = Some c.
Proof.
  intros H Hs Ht Hc Hpk Hafter.
  rows_of_input H rows Hrows. symmetry in Hrows.
  apply map_eq_app in Hrows. destruct Hrows as (rb & rr & -> & <- & Hrr).
  apply map_eq_cons in Hrr. destruct Hrr as (r & ra & -> & <- & <-).
  assert (Hin : in_table s t r = true) by now apply in_table_item.
  rewrite lookup_table_aggregate. unfold rows_of. rewrite filter_app. simpl.
  rewrite Hin.
  destruct (filter (in_table s t) rb ++ r :: filter (in_table s t) ra) eqn:E.
  { now destruct (filter (in_table s t) rb). }
  rewrite <- E. eexists. split; [reflexivity|].
  destruct (build_table_members
              (filter (in_table s t) rb ++ r :: filter (in_table s t) ra)
              new_table) as (_ & -> & _).
  rewrite fold_left_app. simpl. unfold primary_key_after at 2.
  rewrite (proj2 (is_constraint_item r _) Hpk).
  simpl in Hc. injection Hc as ->.
  apply fold_primary_key_unchanged. apply Forall_forall. intros r' Hr'.
  apply filter_In in Hr'. destruct Hr' as [HIn' Hin'].
  apply in_table_item in Hin'. destruct Hin' as [Hs' Ht'].
  rewrite Forall_forall in Hafter.
  specialize (Hafter (item_of_row r') (in_map _ _ _ HIn')).
  destruct (is_constraint r' "PRIMARY KEY") eqn:Hc'; [|reflexivity].
  exfalso. apply Hafter. repeat split; try assumption.
  now apply is_constraint_item.
Qed.

Lemma C4_primary_key_witness :
  exists td,
    lookup_table "public" "users"
      [("public",
        [("users",
          Table [Column "id" "uuid" false; Column "uid" "uuid" false;
                 Column "email" "text" true]
                (Some "uid") [] ["email"])])] = Some td
    /\ primary_key td = Some "uid".
Proof.
  apply (C4_primary_key_last_write_wins
           [users_id]
           [mk_item "public" "users" "email" "text" "NULL" (Some "UNIQUE") None]
           (mk_item "public" "users" "uid" "uuid" "NOT NULL" (Some "PRIMARY KEY") None)
           "public" "users" "uid");
    try reflexivity.
  repeat constructor. intros (_ & _ & Hk). discriminate Hk.
Defined.

(** C1, as the claim states it, fails: every record appends a column entry,
    so a column reported by two records appears twice in its table. *)
Lemma C1_repeated_column_counterexample :
  exists org td,
    aggregate repeated_column = Ok org
    /\ lookup_table "public" "users" org = Some td
    /\ map col_name (columns td) = ["id"; "id"]
    /\ ~ NoDup (map col_name (columns td)).
Proof.
  eexists. eexists. split; [reflexivity|]. split; [reflexivity|].
  split; [reflexivity|]. simpl. intros Hnd. inversion Hnd as [|? ? Hnotin _].
  apply Hnotin. now left.
Qed.

Lemma count_occ_map_filter (rows : list row) (c : string) :
  count_occ string_dec (map col_name (map column_of_row rows)) c
  = List.length (filter (fun r => String.eqb (column r) c) rows).
Proof.
  induction rows as [|r rows IH]; simpl; [reflexivity|].
  destruct (string_dec (column r) c) as [->|Hne].
  - rewrite String.eqb_refl. simpl. now rewrite IH.
  - destruct (String.eqb_spec (column r) c); [contradiction | exact IH].
Qed.

(** C1, amended: every record of a table appends exactly one column entry,
    in input order, so a column name occurs in the column list once per
    record that reports it; the constraints of the records accumulate in the
    table's primary key, foreign-key list and unique list. *)
Theorem C1_one_column_entry_per_record
    (schema_data : list item) (org : schema_map) (s t : string) (td : table_info) :
  aggregate schema_data = Ok org ->
  lookup_table s t org = Some td ->
  exists rows,
    schema_data = map item_of_row rows
    /\ columns td = map column_of_row (rows_of s t rows)
    /\ (forall c, count_occ string_dec (map col_name (columns td)) c
                  = List.length (filter (fun r => String.eqb (column r) c)
                                        (rows_of s t rows)))
    /\ primary_key td = fold_left primary_key_after (rows_of s t rows) None
    /\ foreign_keys td = flat_map fk_of_row (rows_of s t rows)
    /\ unique_constraints td = flat_map unique_of_row (rows_of s t rows).
Proof.
  intros H Hl. rows_of_input H rows Hrows. exists rows. split; [assumption|].
  rewrite lookup_table_aggregate in Hl.
  destruct (rows_of s t rows) as [|r rs] eqn:E; [discriminate|].
  assert (Htd : td = build_table (r :: rs) new_table) by congruence.
  subst td. clear Hl.
  destruct (build_table_members (r :: rs) new_table) as (Hc & Hp & Hf & Hu).
  rewrite Hc, Hp, Hf, Hu. simpl columns. simpl app.
  repeat split; try reflexivity.
  intros c. apply count_occ_map_filter.
Qed.

Lemma C1_one_column_entry_witness :
  exists rows,
    repeated_column = map item_of_row rows
    /\ columns (Table [Column "id" "uuid" false; Column "id" "uuid" false]
                      (Some "id") [] ["id"])
       = map column_of_row (rows_of "public" "users" rows)
    /\ (forall c,
          count_occ string_dec
            (map col_name
               (columns (Table [Column "id" "uuid" false; Column "id" "uuid" false]
                               (Some "id") [] ["id"]))) c
          = List.length (filter (fun r => String.eqb (column r) c)
                                (rows_of "public" "users" rows)))
    /\ primary_key (Table [Column "id" "uuid" false; Column "id" "uuid" false]
                          (Some "id") [] ["id"])
       = fold_left primary_key_after (rows_of "public" "users" rows) None
    /\ foreign_keys (Table [Column "id" "uuid" false; Column "id" "uuid" false]
                           (Some "id") [] ["id"])
       = flat_map fk_of_row (rows_of "public" "users" rows)
    /\ unique_constraints (Table [Column "id" "uuid" false; Column "id" "uuid" false]
                                 (Some "id") [] ["id"])
       = flat_map unique_of_row (rows_of "public" "users" rows).
Proof.
  exact (C1_one_column_entry_per_record repeated_column _ "public" "users" _
           eq_refl eq_refl).
Defined.

(** ** Texts built by accumulation *)

Section Text.
Local Open Scope string_scope.

Lemma append_assoc (a b c : string) : (a ++ b) ++ c = a ++ (b ++ c).
Proof. induction a as [|x a IH]; simpl; [reflexivity | now rewrite IH]. Qed.

Lemma append_empty_r (a : string) : a ++ "" = a.
Proof. induction a as [|x a IH]; simpl; [reflexivity | now rewrite IH]. Qed.

Lemma text_of_app (l1 l2 : list string) :
  text_of (l1 ++ l2)%list = text_of l1 ++ text_of l2.
Proof.
  induction l1 as [|x l1 IH]; simpl; [reflexivity|].
  now rewrite IH, append_assoc.
Qed.

(** A loop whose body appends a piece to the text appends all the pieces. *)
Lemma fold_left_appends {A : Type} (step : string -> A -> string)
    (piece : A -> string) (l : list A) :
  (forall acc x, In x l -> step acc x = acc ++ piece x) ->
  forall acc, fold_left step l acc = acc ++ text_of (map piece l).
Proof.
  induction l as [|x l IH]; intros Hstep acc; simpl.
  - now rewrite append_empty_r.
  - rewrite Hstep by now left. rewrite IH.
    + now rewrite append_assoc.
    + intros acc' y Hy. apply Hstep. now right.
Qed.

(** The same for a loop whose body appends several pieces. *)
Lemma fold_left_appends_many {A : Type} (step : string -> A -> string)
    (pieces : A -> list string) (l : list A) :
  (forall acc x, In x l -> step acc x = acc ++ text_of (pieces x)) ->
  forall acc, fold_left step l acc = acc ++ text_of (flat_map pieces l).
Proof.
  induction l as [|x l IH]; intros Hstep acc; simpl.
  - now rewrite append_empty_r.
  - rewrite Hstep by now left. rewrite IH.
    + now rewrite append_assoc, text_of_app.
    + intros acc' y Hy. apply Hstep. now right.
Qed.

End Text.

(** ** The renderers as concatenations *)

Section Renderers.
Local Open Scope string_scope.

Lemma summary_table_section (tables : defaultdict table_info)
    (summary : string) (t : string) :
  summary_table tables summary t
  = summary ++ table_section t (dd_get new_table t tables).
Proof.
  unfold summary_table, table_section, table_heading.
  rewrite (fold_left_appends _ (summary_row (dd_get new_table t tables)))
    by reflexivity.
  now rewrite !append_assoc.
Qed.

Lemma summary_schema_section (org : schema_map) (summary : string) (s : string) :
  summary_schema org summary s = summary ++ schema_section org s.
Proof.
  unfold summary_schema, schema_section.
  rewrite (fold_left_appends _
             (fun t => table_section t (dd_get new_table t (dd_get [] s org)))).
  - now rewrite !append_assoc.
  - intros acc t _. apply summary_table_section.
Qed.

Lemma render_summary_text (org : schema_map) (timestamp : string) :
  render_summary org timestamp
  = ("# Resumen del Esquema de Base de Datos" ++ nl ++ nl ++ "*Generado el: ")
    ++ timestamp
    ++ ("*" ++ nl ++ nl ++ text_of (map (schema_section org) (sorted (keys org)))).
Proof.
  unfold render_summary.
  rewrite (fold_left_appends _ (schema_section org)).
  - now rewrite !append_assoc.
  - intros acc s _. apply summary_schema_section.
Qed.

Lemma relations_entity_block (org : schema_map) (s : string)
    (relations_summary : string) (t : string) :
  relations_entity org s relations_summary t
  = relations_summary
    ++ entity_block s t (dd_get new_table t (dd_get [] s org)).
Proof.
  unfold relations_entity, entity_block.
  rewrite (fold_left_appends _
             (fun col => "        " ++ col_type col ++ " " ++ col_name col ++ " "
                         ++ pk_marker (dd_get new_table t (dd_get [] s org)) col
                         ++ nl)) by reflexivity.
  now rewrite !append_assoc.
Qed.

Lemma relations_entities_text (org : schema_map) (relations_summary : string) :
  relations_entities org relations_summary
  = relations_summary ++ text_of (entity_blocks org).
Proof.
  unfold relations_entities, entity_blocks.
  apply fold_left_appends_many. intros acc s _.
  apply fold_left_appends. intros acc' t _. apply relations_entity_block.
Qed.

(** The test of the loop body, [if fk['references']] followed by the length
    of the split, selects the references that have exactly two parts. *)
Lemma relations_foreign_key_lines (s t : string) (relations_summary : string)
    (fk : foreign_key) :
  relations_foreign_key s t relations_summary fk
  = relations_summary ++ text_of (link_lines s t fk).
Proof.
  unfold relations_foreign_key, link_lines, two_parts.
  destruct (fk_references fk) as [[|c references]|]; cbn [nonempty].
  - simpl. now rewrite append_empty_r.
  - destruct (split_dot (String c references)) as [|a [|b [|x l]]];
      cbn [text_of fold_right]; now rewrite append_empty_r.
  - simpl. now rewrite append_empty_r.
Qed.

Lemma relations_links_text (org : schema_map) (relations_summary : string) :
  relations_links org relations_summary
  = relations_summary ++ text_of (relationship_lines org).
Proof.
  unfold relations_links, relationship_lines.
  apply fold_left_appends_many. intros acc s _.
  apply fold_left_appends_many. intros acc' t _.
  apply fold_left_appends_many. intros acc'' fk _.
  apply relations_foreign_key_lines.
Qed.

Lemma render_relations_text (org : schema_map) (timestamp : string) :
  render_relations org timestamp
  = ("# Relaciones entre Tablas" ++ nl ++ nl ++ "*Generado el: ")
    ++ timestamp
    ++ ("*" ++ nl ++ nl ++ "```mermaid" ++ nl ++ "erDiagram" ++ nl
        ++ text_of (entity_blocks org) ++ text_of (relationship_lines org)
        ++ "```" ++ nl).
Proof.
  unfold render_relations, relations_header.
  rewrite relations_links_text, relations_entities_text.
  now rewrite !append_assoc.
Qed.

End Renderers.

(** ** Reading a dictionary through its sorted keys *)

Lemma map_over_keys {V B : Type} (dflt : V) (F : string -> V -> B)
    (d : defaultdict V) :
  NoDup (keys d) ->
  map (fun k => F k (dd_get dflt k d)) (keys d)
  = map (fun e => F (fst e) (snd e)) d.
Proof.
  intros Hnd. unfold keys. rewrite map_map. apply map_ext_in.
  intros [k v] HIn. simpl. unfold dd_get.
  now rewrite (In_lookup_Some d k v Hnd HIn).
Qed.

Lemma flat_map_over_keys {V B : Type} (dflt : V) (F : string -> V -> list B)
    (d : defaultdict V) :
  NoDup (keys d) ->
  flat_map (fun k => F k (dd_get dflt k d)) (keys d)
  = flat_map (fun e => F (fst e) (snd e)) d.
Proof.
  intros Hnd. rewrite !flat_map_concat_map. f_equal.
  now apply map_over_keys.
Qed.

Lemma sorted_Permutation (l : list string) : Permutation (sorted l) l.
Proof. symmetry. apply StringSort.Permuted_sort. Qed.

Lemma flat_map_over_sorted_keys {V B : Type} (dflt : V)
    (F : string -> V -> list B) (d : defaultdict V) :
  NoDup (keys d) ->
  Permutation (flat_map (fun k => F k (dd_get dflt k d)) (sorted (keys d)))
              (flat_map (fun e => F (fst e) (snd e)) d).
Proof.
  intros Hnd. rewrite <- (flat_map_over_keys dflt F d Hnd).
  apply Permutation_flat_map. apply sorted_Permutation.
Qed.

Lemma Permutation_flat_map_pointwise {A B : Type} (f g : A -> list B)
    (l : list A) :
  Forall (fun x => Permutation (f x) (g x)) l ->
  Permutation (flat_map f l) (flat_map g l).
Proof.
  induction 1 as [|x l Hx _ IH]; simpl.
  - constructor.
  - now apply Permutation_app.
Qed.








(** ** Statistics *)

Lemma fold_left_snoc_map {A B : Type} (h : A -> B) (l : list A) (acc : list B) :
  fold_left (fun acc x => acc ++ [h x]) l acc = acc ++ map h l.
Proof.
  revert acc. induction l as [|x l IH]; intros acc; simpl.
  - now rewrite app_nil_r.
  - now rewrite IH, <- app_assoc.
Qed.

Lemma fold_left_add {A : Type} (h : A -> nat) (l : list A) (n : nat) :
  fold_left (fun total x => total + h x) l n = n + list_sum (map h l).
Proof.
  revert n. induction l as [|x l IH]; intros n; simpl.
  - lia.
  - rewrite IH. lia.
Qed.

Lemma dict_set_fresh {V : Type} (k : string) (v : V) (d : list (string * V)) :
  ~ In k (map fst d) -> dict_set k v d = d ++ [(k, v)].
Proof.
  induction d as [|[k' v'] d IH]; simpl; intros Hk; [reflexivity|].
  destruct (String.eqb_spec k k') as [->|Hne].
  - exfalso. apply Hk. now left.
  - rewrite IH; [reflexivity|]. intros HIn. apply Hk. now right.
Qed.

Lemma fold_dict_set {V : Type} (g : string -> V) (ks : list string)
    (d : list (string * V)) :
  NoDup ks -> (forall k, In k ks -> ~ In k (map fst d)) ->
  fold_left (fun d k => dict_set k (g k) d) ks d
  = d ++ map (fun k => (k, g k)) ks.
Proof.
  revert d. induction ks as [|k ks IH]; intros d Hnd Hfresh; simpl.
  - now rewrite app_nil_r.
  - inversion Hnd as [|? ? Hnotin Hnd']; subst.
    rewrite dict_set_fresh by (apply Hfresh; now left).
    rewrite IH; [now rewrite <- app_assoc | assumption |].
    intros k' Hk'. rewrite map_app, in_app_iff. simpl.
    intros [HIn|[<-|[]]].
    + apply (Hfresh k'); [now right | assumption].
    + contradiction.
Qed.

Lemma schema_details_of_map (org : schema_map) :
  well_keyed org ->
  schema_details_of org
  = map (fun e =>
           (fst e,
            SchemaStats (List.length (snd e))
                        (map (fun e' => stats_of_table (fst e') (snd e')) (snd e))))
        org.
Proof.
  intros [Hs Ht]. unfold schema_details_of.
  rewrite (fold_dict_set
             (fun schema =>
                SchemaStats
                  (List.length (keys (dd_get [] schema org)))
                  (fold_left
                     (fun schema_tables table =>
                        schema_tables
                        ++ [stats_of_table table
                              (dd_get new_table table (dd_get [] schema org))])
                     (keys (dd_get [] schema org)) [])))
    by (try assumption; intros k _ []).
  simpl.
  rewrite (map_over_keys []
             (fun schema tables =>
                (schema,
                 SchemaStats
                   (List.length (keys tables))
                   (fold_left
                      (fun schema_tables table =>
                         schema_tables
                         ++ [stats_of_table table (dd_get new_table table tables)])
                      (keys tables) []))) org Hs).
  apply map_ext_in. intros [s tables] HIn. simpl.
  rewrite Forall_forall in Ht. specialize (Ht _ HIn). simpl in Ht.
  unfold keys at 1. rewrite length_map. f_equal. f_equal.
  rewrite (fold_left_snoc_map
             (fun table => stats_of_table table (dd_get new_table table tables))).
  simpl. now apply (map_over_keys new_table stats_of_table).
Qed.

Lemma fold_totals {A B : Type} (a : A -> nat) (ts : A -> list B)
    (b : A -> B -> nat) (l : list A) (totals : nat * nat) :
  fold_left
    (fun totals s =>
       (fst totals + a s,
        fold_left (fun total_columns t => total_columns + b s t) (ts s)
                  (snd totals)))
    l totals
  = (fst totals + list_sum (map a l),
     snd totals + list_sum (map (fun s => list_sum (map (b s) (ts s))) l)).
Proof.
  revert totals. induction l as [|s l IH]; intros [x y]; simpl.
  - f_equal; lia.
  - rewrite IH. simpl. rewrite fold_left_add. f_equal; lia.
Qed.

Lemma count_totals_sums (org : schema_map) :
  well_keyed org ->
  count_totals org
  = (list_sum (map (fun e => List.length (snd e)) org),
     list_sum (map (fun e => list_sum (map (fun e' => List.length (columns (snd e')))
                                           (snd e)))
                   org)).
Proof.
  intros [Hs Ht]. unfold count_totals.
  rewrite (fold_totals
             (fun schema => List.length (keys (dd_get [] schema org)))
             (fun schema => keys (dd_get [] schema org))
             (fun schema table =>
                List.length
                  (columns (dd_get new_table table (dd_get [] schema org))))).
  simpl. f_equal.
  - rewrite (map_over_keys [] (fun _ tables => List.length (keys tables)) org Hs).
    f_equal. apply map_ext. intros e. unfold keys. now rewrite length_map.
  - rewrite (map_over_keys []
               (fun _ tables =>
                  list_sum (map (fun table =>
                                   List.length
                                     (columns (dd_get new_table table tables)))
                                (keys tables))) org Hs).
    f_equal. apply map_ext_in. intros [s tables] HIn. simpl.
    rewrite Forall_forall in Ht. specialize (Ht _ HIn). simpl in Ht.
    f_equal.
    now apply (map_over_keys new_table (fun _ td => List.length (columns td))).
Qed.

Lemma list_sum_flat_map {A B : Type} (f : B -> nat) (g : A -> list B)
    (l : list A) :
  list_sum (map f (flat_map g l))
  = list_sum (map (fun x => list_sum (map f (g x))) l).
Proof.
  induction l as [|x l IH]; simpl; [reflexivity|].
  now rewrite map_app, list_sum_app, IH.
Qed.



(** ** The timestamp in the outputs *)

Section Timestamp.
Local Open Scope string_scope.

Lemma escape_ascii_plain (c : ascii) :
  plain_char c = true ->
  N.ltb (N_of_ascii c) 128 = true /\ escape_ascii c = String c EmptyString.
Proof.
  unfold plain_char, escape_ascii. intros H.
  apply andb_true_iff in H. destruct H as [H H92].
  apply andb_true_iff in H. destruct H as [H H34].
  apply andb_true_iff in H. destruct H as [Hlo Hhi].
  apply negb_true_iff in H92, H34. rewrite H34, H92, Hlo, Hhi. simpl.
  apply N.leb_le in Hlo, Hhi. split; [apply N.ltb_lt; lia|].
  repeat match goal with
         | |- context [N.eqb ?a ?b] =>
             destruct (N.eqb_spec a b); [exfalso; lia|]
         end.
  reflexivity.
Qed.

Lemma encode_plain_text (s : string) :
  plain_text s = true -> encode_basestring_ascii s = s.
Proof.
  induction s as [|c s IH]; simpl; [reflexivity|].
  intros H. apply andb_true_iff in H. destruct H as [Hc Hs].
  destruct (escape_ascii_plain c Hc) as [-> ->]. simpl. now rewrite IH.
Qed.

Lemma render_stats_text (org : schema_map) (timestamp : string) :
  render_stats org timestamp
  = ("{" ++ newline_indent 1 ++ json_string "timestamp" ++ ": ")
    ++ json_string timestamp
    ++ ("," ++ newline_indent 1
        ++ String.concat ("," ++ newline_indent 1)
             (map (fun member =>
                     json_string (fst member) ++ ": " ++ dumps 1 (snd member))
                  (stats_members_after_timestamp org))
        ++ newline_indent 0 ++ "}").
Proof.
  unfold render_stats, stats_members_after_timestamp, json_of_stats, build_stats.
  cbn [dumps map String.concat fst snd st_timestamp st_schemas st_tables
       st_columns st_schema_details].
  now rewrite !append_assoc.
Qed.

(** C7: every output is a function of the input records and the timestamp,
    and the timestamp is all that varies between two runs on one input:
    either the run fails with the same exception whatever the timestamp, or
    each of the three texts is a fixed prefix, the timestamp (in the JSON
    document, the timestamp as a JSON string), and a fixed suffix.  A
    timestamp made of plain characters appears in the JSON document as
    itself between quotation marks. *)
Theorem C7_outputs_vary_only_in_timestamp (schema_data : list item) :
  ((exists e, forall timestamp, analyze_schema schema_data timestamp = Raise e)
   \/ (exists p1 s1 p2 s2 p3 s3,
         forall timestamp,
           analyze_schema schema_data timestamp
           = Ok (Outputs (p1 ++ timestamp ++ s1)
                         (p2 ++ timestamp ++ s2)
                         (p3 ++ json_string timestamp ++ s3))))
  /\ (forall timestamp,
        plain_text timestamp = true ->
        json_string timestamp = dquote ++ timestamp ++ dquote).
Proof.
  split.
  - unfold analyze_schema. destruct (aggregate schema_data) as [org|e]; simpl.
    + right.
      exists ("# Resumen del Esquema de Base de Datos" ++ nl ++ nl ++ "*Generado el: ").
      exists ("*" ++ nl ++ nl ++ text_of (map (schema_section org) (sorted (keys org)))).
      exists ("# Relaciones entre Tablas" ++ nl ++ nl ++ "*Generado el: ").
      exists ("*" ++ nl ++ nl ++ "```mermaid" ++ nl ++ "erDiagram" ++ nl
              ++ text_of (entity_blocks org) ++ text_of (relationship_lines org)
              ++ "```" ++ nl).
      exists ("{" ++ newline_indent 1 ++ json_string "timestamp" ++ ": ").
      exists ("," ++ newline_indent 1
              ++ String.concat ("," ++ newline_indent 1)
                   (map (fun member =>
                           json_string (fst member) ++ ": " ++ dumps 1 (snd member))
                        (stats_members_after_timestamp org))
              ++ newline_indent 0 ++ "}").
      intros timestamp.
      now rewrite render_summary_text, render_relations_text, render_stats_text.
    + left. exists e. reflexivity.
  - intros timestamp H. unfold json_string. now rewrite encode_plain_text.
Qed.

End Timestamp.

(** ** Rows of the summary *)





(** ** Foreign keys of one column *)

Lemma find_app {A : Type} (f : A -> bool) (l1 l2 : list A) :
  find f (l1 ++ l2)
  = match find f l1 with
    | Some x => Some x
    | None => find f l2
    end.
Proof.
  induction l1 as [|x l1 IH]; simpl; [reflexivity|].
  now destruct (f x).
Qed.


Lemma constraints_of_labels (td : table_info) (col : column_info) :
  constraints_of td col
  = key_labels td col
    ++ match find (fun fk => String.eqb (fk_column fk) (col_name col))
                  (foreign_keys td) with
       | Some fk => [("FK → " ++ str_of_optional (fk_references fk))%string]
       | None => []
       end.
Proof.
  unfold constraints_of, key_labels.
  destruct (same_as_primary_key (col_name col) (primary_key td));
    destruct (existsb (String.eqb (col_name col)) (unique_constraints td));
    destruct (find _ (foreign_keys td)); simpl; reflexivity.
Qed.









(** * Further properties *)

(** ** Composition and errors of the aggregation *)

(** X1: the loop over the records composes: processing a concatenation is
    processing its first part and then its second part from the map
    reached, and an exception raised in the first part is the exception of
    the whole. *)
Theorem organize_app (org : schema_map) (first second : list item) :
  organize org (first ++ second)
  = (org' <- organize org first ;; organize org' second).
Proof.
  revert org. induction first as [|it first IH]; intros org; simpl.
  - reflexivity.
  - destruct (read_item it) as [r|e]; simpl; [apply IH | reflexivity].
Qed.

Lemma organize_complete (schema_data : list item) (org : schema_map) :
  Forall has_all_fields schema_data -> exists org', organize org schema_data = Ok org'.
Proof.
  intros HF. destruct (organize_missing schema_data org) as [[_ Hok]|[HE _]].
  - exact Hok.
  - exfalso. apply Exists_exists in HE. destruct HE as (it & HIn & Hl).
    rewrite Forall_forall in HF. exact (Hl (HF it HIn)).
Qed.




(** ** A table and the records of other tables *)

Lemma item_in_table_of_row (s t : string) (r : row) :
  item_in_table s t (item_of_row r) = in_table s t r.
Proof. reflexivity. Qed.

Lemma filter_item_in_table (s t : string) (rows : list row) :
  filter (item_in_table s t) (map item_of_row rows)
  = map item_of_row (rows_of s t rows).
Proof.
  unfold rows_of. induction rows as [|r rows IH]; simpl; [reflexivity|].
  rewrite item_in_table_of_row. destruct (in_table s t r); simpl; now rewrite IH.
Qed.

Lemma rows_of_idempotent (s t : string) (rows : list row) :
  rows_of s t (rows_of s t rows) = rows_of s t rows.
Proof.
  unfold rows_of. induction rows as [|r rows IH]; simpl; [reflexivity|].
  destruct (in_table s t r) eqn:E; simpl; [rewrite E|]; now rewrite IH.
Qed.

(** X3: the entry of a table depends on the records of that table alone:
    aggregating only the records of table [s].[t] succeeds and gives the
    same entry for [s].[t] as aggregating the whole input. *)
Theorem table_depends_on_its_records
    (schema_data : list item) (org : schema_map) (s t : string) :
  aggregate schema_data = Ok org ->
  exists org',
    aggregate (filter (item_in_table s t) schema_data) = Ok org'
    /\ lookup_table s t org' = lookup_table s t org.
Proof.
  intros H. rows_of_input H rows Hrows. subst schema_data.
  rewrite filter_item_in_table, aggregate_item_of_row. eexists.
  split; [reflexivity|].
  now rewrite !lookup_table_aggregate, rows_of_idempotent.
Qed.

Lemma table_depends_on_its_records_witness :
  exists org',
    aggregate (filter (item_in_table "public" "posts") sample_data) = Ok org'
    /\ lookup_table "public" "posts" org'
       = lookup_table "public" "posts" sample_org.
Proof.
  exact (table_depends_on_its_records sample_data sample_org "public" "posts"
           eq_refl).
Defined.

(** ** Totals over the tables *)

Section Totals.
Context {V : Type} (dflt : V).

Lemma sum_dd_modify (measure : V -> nat) (delta : nat) (k : string)
    (f : V -> V) (d : defaultdict V) :
  measure dflt = 0 -> (forall v, measure (f v) = measure v + delta) ->
  list_sum (map (fun e => measure (snd e)) (dd_modify dflt k f d))
  = list_sum (map (fun e => measure (snd e)) d) + delta.
Proof.
  intros Hd Hf. induction d as [|[k' v] d IH]; simpl.
  - rewrite Hf, Hd. lia.
  - destruct (String.eqb k k'); simpl.
    + rewrite Hf. lia.
    + rewrite IH. lia.
Qed.

End Totals.

Lemma total_store_row (measure : table_info -> nat) (delta : nat)
    (org : schema_map) (r : row) :
  measure new_table = 0 ->
  (forall td, measure (add_row r td) = measure td + delta) ->
  total_over_tables measure (store_row org r)
  = total_over_tables measure org + delta.
Proof.
  intros Hnew Hadd. unfold total_over_tables, store_row.
  apply (sum_dd_modify []
           (fun tables => list_sum (map (fun e' => measure (snd e')) tables))).
  - reflexivity.
  - intros tables. now apply sum_dd_modify.
Qed.

Lemma total_fold (measure : table_info -> nat) (weight : row -> nat)
    (rows : list row) (org : schema_map) :
  measure new_table = 0 ->
  (forall r td, measure (add_row r td) = measure td + weight r) ->
  total_over_tables measure (fold_left store_row rows org)
  = total_over_tables measure org + list_sum (map weight rows).
Proof.
  intros Hnew Hadd. revert org.
  induction rows as [|r rows IH]; intros org; simpl.
  - lia.
  - rewrite IH, (total_store_row measure (weight r)) by auto. lia.
Qed.

Lemma list_sum_indicator {A : Type} (f : A -> bool) (l : list A) :
  list_sum (map (fun x => if f x then 1 else 0) l) = List.length (filter f l).
Proof.
  induction l as [|x l IH]; simpl; [reflexivity|].
  destruct (f x); simpl; now rewrite IH.
Qed.

Lemma filter_item_has_constraint (kind : string) (rows : list row) :
  List.length (filter (item_has_constraint kind) (map item_of_row rows))
  = List.length (filter (fun r => is_constraint r kind) rows).
Proof.
  induction rows as [|r rows IH]; simpl; [reflexivity|].
  change (item_has_constraint kind (item_of_row r)) with (is_constraint r kind).
  destruct (is_constraint r kind); simpl; now rewrite IH.
Qed.

(** X4: every record contributes one column entry, so the column count of
    the statistics is the number of input records. *)
Theorem column_total_is_record_count
    (schema_data : list item) (org : schema_map) (timestamp : string) :
  aggregate schema_data = Ok org ->
  st_columns (build_stats org timestamp) = List.length schema_data.
Proof.
  intros H. pose proof (well_keyed_aggregate _ _ H) as Hwk.
  rows_of_input H rows Hrows. subst schema_data. simpl.
  rewrite (count_totals_sums _ Hwk). simpl.
  change (list_sum _)
    with (total_over_tables (fun td => List.length (columns td))
                            (fold_left store_row rows [])).
  rewrite (total_fold _ (fun _ => 1)).
  - simpl. rewrite length_map. clear. induction rows; simpl; congruence.
  - reflexivity.
  - intros r td. destruct (add_row_members r td) as (-> & _).
    rewrite length_app. reflexivity.
Qed.

Lemma column_total_witness :
  st_columns (build_stats sample_org sample_timestamp) = List.length sample_data.
Proof.
  exact (column_total_is_record_count sample_data sample_org sample_timestamp
           eq_refl).
Defined.

Lemma all_table_stats_sum (field : table_stats -> nat)
    (measure : table_info -> nat) (org : schema_map) (timestamp : string) :
  well_keyed org ->
  (forall t td, field (stats_of_table t td) = measure td) ->
  list_sum (map field (all_table_stats (build_stats org timestamp)))
  = total_over_tables measure org.
Proof.
  intros Hwk Hfield. unfold all_table_stats, total_over_tables. simpl.
  rewrite (schema_details_of_map org Hwk), list_sum_flat_map, map_map. simpl.
  f_equal. apply map_ext. intros e. rewrite map_map. f_equal.
  apply map_ext. intros e'. apply Hfield.
Qed.

(** X5: summed over all tables, the foreign-key counts of the statistics are
    the number of FOREIGN KEY records of the input and the unique-constraint
    counts are the number of UNIQUE records. *)
Theorem constraint_totals_are_record_counts
    (schema_data : list item) (org : schema_map) (timestamp : string) :
  aggregate schema_data = Ok org ->
  list_sum (map ts_foreign_keys (all_table_stats (build_stats org timestamp)))
  = List.length (filter (item_has_constraint "FOREIGN KEY") schema_data)
  /\ list_sum (map ts_unique_constraints
                   (all_table_stats (build_stats org timestamp)))
     = List.length (filter (item_has_constraint "UNIQUE") schema_data).
Proof.
  intros H. pose proof (well_keyed_aggregate _ _ H) as Hwk.
  rows_of_input H rows Hrows. subst schema_data.
  rewrite !filter_item_has_constraint. split.
  - rewrite (all_table_stats_sum _ (fun td => List.length (foreign_keys td)))
      by (auto; reflexivity).
    rewrite (total_fold _ (fun r => if is_constraint r "FOREIGN KEY" then 1 else 0)).
    + simpl. apply list_sum_indicator.
    + reflexivity.
    + intros r td. destruct (add_row_members r td) as (_ & _ & -> & _).
      rewrite length_app. unfold fk_of_row.
      now destruct (is_constraint r "FOREIGN KEY").
  - rewrite (all_table_stats_sum _ (fun td => List.length (unique_constraints td)))
      by (auto; reflexivity).
    rewrite (total_fold _ (fun r => if is_constraint r "UNIQUE" then 1 else 0)).
    + simpl. apply list_sum_indicator.
    + reflexivity.
    + intros r td. destruct (add_row_members r td) as (_ & _ & _ & ->).
      rewrite length_app. unfold unique_of_row.
      now destruct (is_constraint r "UNIQUE").
Qed.

Lemma constraint_totals_witness :
  list_sum (map ts_foreign_keys
                (all_table_stats (build_stats sample_org sample_timestamp)))
  = List.length (filter (item_has_constraint "FOREIGN KEY") sample_data)
  /\ list_sum (map ts_unique_constraints
                   (all_table_stats (build_stats sample_org sample_timestamp)))
     = List.length (filter (item_has_constraint "UNIQUE") sample_data).
Proof.
  exact (constraint_totals_are_record_counts sample_data sample_org
           sample_timestamp eq_refl).
Defined.

(** ** Presence of a primary key *)

Lemma fold_primary_key_is_Some (rows : list row) (pk : option string) :
  is_not_None (fold_left primary_key_after rows pk) = true
  <-> is_not_None pk = true
      \/ exists r, In r rows /\ is_constraint r "PRIMARY KEY" = true.
Proof.
  revert pk. induction rows as [|r rows IH]; intros pk; simpl.
  - split; [now left | intros [H|(r & [] & _)]; exact H].
  - rewrite IH. unfold primary_key_after at 1. split.
    + intros [H|(r' & HIn & Hr')].
      * destruct (is_constraint r "PRIMARY KEY") eqn:E.
        -- right. exists r. split; [now left | exact E].
        -- now left.
      * right. exists r'. split; [now right | exact Hr'].
    + intros [H|(r' & [<-|HIn] & Hr')].
      * left. now destruct (is_constraint r "PRIMARY KEY").
      * left. now rewrite Hr'.
      * right. now exists r'.
Qed.

(** X6: the statistics report a primary key for a table exactly when some
    record of that table has constraint type PRIMARY KEY. *)
Theorem has_primary_key_iff_some_record
    (schema_data : list item) (org : schema_map) (s t : string) (td : table_info) :
  aggregate schema_data = Ok org ->
  lookup_table s t org = Some td ->
  ts_has_primary_key (stats_of_table t td) = true
  <-> exists it, In it schema_data
                 /\ item_in_table s t it = true
                 /\ item_has_constraint "PRIMARY KEY" it = true.
Proof.
  intros H Hl. rows_of_input H rows Hrows. subst schema_data.
  rewrite lookup_table_aggregate in Hl.
  destruct (rows_of s t rows) as [|r0 rs] eqn:E; [discriminate|].
  assert (Htd : td = build_table (r0 :: rs) new_table) by congruence.
  subst td. clear Hl. unfold stats_of_table. cbn [ts_has_primary_key].
  destruct (build_table_members (r0 :: rs) new_table) as (_ & -> & _).
  rewrite fold_primary_key_is_Some, <- E. simpl. split.
  - intros [Hf|(r & HIn & Hr)]; [discriminate|].
    apply filter_In in HIn. destruct HIn as [HIn Hin].
    exists (item_of_row r). split; [now apply in_map|]. now split.
  - intros (it & HIn & Hin & Hc). right. apply in_map_iff in HIn.
    destruct HIn as (r & <- & HIn). exists r. split.
    + apply filter_In. now split.
    + exact Hc.
Qed.

Lemma has_primary_key_witness :
  ts_has_primary_key
    (stats_of_table "posts"
       (Table [Column "user_id" "uuid" true; Column "legacy_id" "int4" true;
               Column "id" "uuid" false]
              (Some "id")
              [ForeignKey "user_id" (Some "public.users");
               ForeignKey "legacy_id" None] [])) = true
  <-> exists it, In it sample_data
                 /\ item_in_table "public" "posts" it = true
                 /\ item_has_constraint "PRIMARY KEY" it = true.
Proof.
  exact (has_primary_key_iff_some_record sample_data sample_org "public" "posts" _
           eq_refl eq_refl).
Defined.

(** ** Order of the statistics *)

Lemma keys_store_row (org : schema_map) (r : row) :
  keys (store_row org r) = note_seen (keys org) (schema r).
Proof. apply keys_dd_modify. Qed.

Lemma keys_fold_store_row (rows : list row) (org : schema_map) :
  keys (fold_left store_row rows org)
  = fold_left note_seen (map schema rows) (keys org).
Proof.
  revert org. induction rows as [|r rows IH]; intros org; simpl.
  - reflexivity.
  - now rewrite IH, keys_store_row.
Qed.

Lemma tables_store_row (s : string) (org : schema_map) (r : row) :
  keys (dd_get [] s (store_row org r))
  = if String.eqb (schema r) s
    then note_seen (keys (dd_get [] s org)) (table r)
    else keys (dd_get [] s org).
Proof.
  unfold store_row, dd_get at 1.
  destruct (String.eqb_spec (schema r) s) as [<-|Hne].
  - rewrite lookup_dd_modify_same. apply keys_dd_modify.
  - rewrite lookup_dd_modify_other by congruence. reflexivity.
Qed.

Lemma tables_fold_store_row (s : string) (rows : list row) (org : schema_map) :
  keys (dd_get [] s (fold_left store_row rows org))
  = fold_left note_seen
      (map table (filter (fun r => String.eqb (schema r) s) rows))
      (keys (dd_get [] s org)).
Proof.
  revert org. induction rows as [|r rows IH]; intros org; simpl.
  - reflexivity.
  - rewrite IH, tables_store_row.
    now destruct (String.eqb (schema r) s).
Qed.

Lemma schemas_of_rows (rows : list row) :
  schemas_of (map item_of_row rows) = map schema rows.
Proof.
  unfold schemas_of. induction rows as [|r rows IH]; simpl; [reflexivity|].
  now rewrite IH.
Qed.

Lemma tables_of_rows (s : string) (rows : list row) :
  tables_of s (map item_of_row rows)
  = map table (filter (fun r => String.eqb (schema r) s) rows).
Proof.
  unfold tables_of. induction rows as [|r rows IH]; simpl; [reflexivity|].
  change (item_in_schema s (item_of_row r)) with (String.eqb (schema r) s).
  destruct (String.eqb (schema r) s); simpl; now rewrite IH.
Qed.

(** X7: the statistics list the schemas in the order in which they first
    occur in the input, and under each schema its tables in the order in
    which they first occur (the summary and the diagram list them sorted). *)
Theorem statistics_follow_first_occurrence
    (schema_data : list item) (org : schema_map) (timestamp : string) :
  aggregate schema_data = Ok org ->
  map fst (st_schema_details (build_stats org timestamp))
  = first_occurrences (schemas_of schema_data)
  /\ Forall (fun entry =>
               map ts_name (ss_table_details (snd entry))
               = first_occurrences (tables_of (fst entry) schema_data))
            (st_schema_details (build_stats org timestamp)).
Proof.
  intros H. pose proof (well_keyed_aggregate _ _ H) as Hwk.
  rows_of_input H rows Hrows. subst schema_data. simpl.
  rewrite (schema_details_of_map _ Hwk). split.
  - rewrite map_map. simpl. rewrite schemas_of_rows.
    change (map (fun e => fst e) (fold_left store_row rows []))
      with (keys (fold_left store_row rows [])).
    apply keys_fold_store_row.
  - apply Forall_forall. intros entry HIn. apply in_map_iff in HIn.
    destruct HIn as ([s tables] & <- & HIn). simpl.
    rewrite map_map. simpl. rewrite tables_of_rows.
    destruct Hwk as [Hs _].
    pose proof (In_lookup_Some _ s tables Hs HIn) as Hl.
    pose proof (tables_fold_store_row s rows []) as Hk.
    unfold dd_get at 1 in Hk. rewrite Hl in Hk. exact Hk.
Qed.

Lemma statistics_order_witness :
  map fst (st_schema_details (build_stats sample_org sample_timestamp))
  = first_occurrences (schemas_of sample_data)
  /\ Forall (fun entry =>
               map ts_name (ss_table_details (snd entry))
               = first_occurrences (tables_of (fst entry) sample_data))
            (st_schema_details (build_stats sample_org sample_timestamp)).
Proof.
  exact (statistics_follow_first_occurrence sample_data sample_org
           sample_timestamp eq_refl).
Defined.

(** ** Empty input *)

(** X8: an empty array of records is not an error: the summary and the
    diagram consist of their headers (and the empty diagram block), and the
    statistics hold zero counts and an empty object of schema details. *)
Theorem empty_input_gives_empty_documents (timestamp : string) :
  analyze_schema [] timestamp
  = Ok (Outputs
          ("# Resumen del Esquema de Base de Datos" ++ nl ++ nl
           ++ "*Generado el: " ++ timestamp ++ "*" ++ nl ++ nl)%string
          ("# Relaciones entre Tablas" ++ nl ++ nl
           ++ "*Generado el: " ++ timestamp ++ "*" ++ nl ++ nl
           ++ "```mermaid" ++ nl ++ "erDiagram" ++ nl ++ "```" ++ nl)%string
          ("{" ++ nl
           ++ "  " ++ dquote ++ "timestamp" ++ dquote ++ ": "
           ++ json_string timestamp ++ "," ++ nl
           ++ "  " ++ dquote ++ "schemas" ++ dquote ++ ": 0," ++ nl
           ++ "  " ++ dquote ++ "tables" ++ dquote ++ ": 0," ++ nl
           ++ "  " ++ dquote ++ "columns" ++ dquote ++ ": 0," ++ nl
           ++ "  " ++ dquote ++ "schema_details" ++ dquote ++ ": {}" ++ nl
           ++ "}")%string).
Proof.
  unfold analyze_schema. cbn [aggregate organize bind].
  rewrite render_summary_text, render_relations_text, render_stats_text.
  reflexivity.
Qed.

(** ** References and full stops *)

Lemma split_dot_nonempty (s : string) : split_dot s <> [].
Proof.
  destruct s as [|c s]; simpl; [discriminate|].
  destruct (Ascii.eqb c "."); [discriminate|].
  destruct (split_dot s); discriminate.
Qed.

Lemma length_split_dot (s : string) : List.length (split_dot s) = S (dots s).
Proof.
  induction s as [|c s IH]; simpl; [reflexivity|].
  destruct (Ascii.eqb c "."); simpl.
  - now rewrite IH.
  - destruct (split_dot s) as [|p ps] eqn:E; simpl in *; [discriminate | exact IH].
Qed.

Lemma split_dot_no_dots (s : string) : dots s = 0 -> split_dot s = [s].
Proof.
  induction s as [|c s IH]; simpl; [reflexivity|].
  destruct (Ascii.eqb c "."); simpl; [discriminate|].
  intros H. now rewrite (IH H).
Qed.

Lemma split_dot_append (a b : string) :
  dots a = 0 -> split_dot (a ++ String "."%char b)%string = a :: split_dot b.
Proof.
  induction a as [|c a IH]; simpl; [reflexivity|].
  destruct (Ascii.eqb c "."); simpl; [discriminate|].
  intros H. now rewrite (IH H).
Qed.

Lemma split_dot_cons (s : string) (a : string) (rest : list string) :
  split_dot s = a :: rest -> rest <> [] ->
  exists b, s = (a ++ String "."%char b)%string /\ dots a = 0 /\ split_dot b = rest.
Proof.
  revert a rest. induction s as [|c s IH]; simpl; intros a rest H Hrest.
  - injection H as <- <-. contradiction.
  - destruct (Ascii.eqb_spec c ".") as [->|Hne].
    + injection H as <- <-. now exists s.
    + destruct (split_dot s) as [|p ps] eqn:E.
      * injection H as <- <-. contradiction.
      * injection H as <- <-. destruct (IH p ps eq_refl Hrest) as (b & -> & Hp & Hb).
        exists b. simpl. repeat split; try assumption.
        destruct (Ascii.eqb_spec c "."); [contradiction | exact Hp].
Qed.

(** X9: a foreign key gets a relationship line exactly when its reference
    has exactly one full stop; the parts before and after the stop, which
    may be empty, are the referenced schema and table.  No reference, and a
    reference with no stop or with several, add nothing. *)
Theorem line_iff_exactly_one_full_stop
    (schema table relations_summary : string) (fk : foreign_key) :
  match fk_references fk with
  | Some reference =>
      (exists ref_schema ref_table,
          reference = (ref_schema ++ "." ++ ref_table)%string
          /\ dots ref_schema = 0 /\ dots ref_table = 0
          /\ dots reference = 1
          /\ relations_foreign_key schema table relations_summary fk
             = (relations_summary
                ++ relation_line schema table ref_schema ref_table (fk_column fk))%string)
      \/ (dots reference <> 1
          /\ relations_foreign_key schema table relations_summary fk
             = relations_summary)
  | None => relations_foreign_key schema table relations_summary fk
            = relations_summary
  end.
Proof.
  unfold relations_foreign_key.
  destruct (fk_references fk) as [reference|]; [|reflexivity].
  pose proof (length_split_dot reference) as Hlen.
  destruct reference as [|c reference]; [right; split; [discriminate | reflexivity]|].
  cbn [nonempty]. cbv zeta.
  destruct (split_dot (String c reference)) as [|a [|b [|x l]]] eqn:E;
    cbn [List.length] in Hlen.
  - right. split; [lia | reflexivity].
  - right. split; [lia | reflexivity].
  - left. exists a, b.
    destruct (split_dot_cons _ _ _ E ltac:(discriminate)) as (b' & Hs & Ha & Hb).
    assert (Hb0 : dots b' = 0).
    { pose proof (length_split_dot b') as H'. rewrite Hb in H'. simpl in H'. lia. }
    rewrite (split_dot_no_dots b' Hb0) in Hb. injection Hb as <-.
    repeat split; try assumption.
    lia.
  - right. split; [lia | reflexivity].
Qed.

(** ** The order of [sorted] *)

Lemma ascii_compare_Lt_trans (a b c : ascii) :
  Ascii.compare a b = Lt -> Ascii.compare b c = Lt -> Ascii.compare a c = Lt.
Proof.
  unfold Ascii.compare. rewrite !N.compare_lt_iff. apply N.lt_trans.
Qed.

Lemma compare_Lt_trans (s1 s2 s3 : string) :
  String.compare s1 s2 = Lt -> String.compare s2 s3 = Lt ->
  String.compare s1 s3 = Lt.
Proof.
  revert s2 s3. induction s1 as [|c1 s1 IH]; intros [|c2 s2] [|c3 s3];
    simpl; try discriminate; try reflexivity.
  destruct (Ascii.compare c1 c2) eqn:E12; try discriminate;
    destruct (Ascii.compare c2 c3) eqn:E23; try discriminate; intros H12 H23.
  - apply Ascii.compare_eq_iff in E12, E23. subst.
    assert (E : Ascii.compare c3 c3 = Eq) by apply N.compare_refl.
    rewrite E. now apply (IH s2).
  - apply Ascii.compare_eq_iff in E12. subst. now rewrite E23.
  - apply Ascii.compare_eq_iff in E23. subst. now rewrite E12.
  - now rewrite (ascii_compare_Lt_trans _ _ _ E12 E23).
Qed.

Lemma compare_refl (s : string) : String.compare s s = Eq.
Proof.
  induction s as [|c s IH]; simpl; [reflexivity|].
  assert (E : Ascii.compare c c = Eq) by apply N.compare_refl.
  now rewrite E.
Qed.

Lemma leb_trans (s1 s2 s3 : string) :
  String.leb s1 s2 = true -> String.leb s2 s3 = true -> String.leb s1 s3 = true.
Proof.
  unfold String.leb.
  destruct (String.compare s1 s2) eqn:E12; try discriminate;
    destruct (String.compare s2 s3) eqn:E23; try discriminate; intros _ _.
  - apply String.compare_eq_iff in E12, E23. subst. now rewrite compare_refl.
  - apply String.compare_eq_iff in E12. subst. now rewrite E23.
  - apply String.compare_eq_iff in E23. subst. now rewrite E12.
  - now rewrite (compare_Lt_trans _ _ _ E12 E23).
Qed.

Lemma leb_ne_ltb (s1 s2 : string) :
  String.leb s1 s2 = true -> s1 <> s2 -> String.ltb s1 s2 = true.
Proof.
  unfold String.leb, String.ltb.
  destruct (String.compare s1 s2) eqn:E; try discriminate; [|reflexivity].
  intros _ Hne. apply String.compare_eq_iff in E. contradiction.
Qed.

Lemma sorted_StronglySorted (l : list string) :
  StronglySorted (fun a b => String.leb a b = true) (sorted l).
Proof.
  apply StringSort.StronglySorted_sort. intros a b c. apply leb_trans.
Qed.

Lemma StronglySorted_strict (l : list string) :
  StronglySorted (fun a b => String.leb a b = true) l -> NoDup l ->
  StronglySorted (fun a b => String.ltb a b = true) l.
Proof.
  induction 1 as [|a l Hl IH Ha]; intros Hnd; constructor.
  - apply IH. now inversion Hnd.
  - inversion Hnd as [|? ? Hnotin _]; subst.
    rewrite Forall_forall in *. intros b Hb. apply leb_ne_ltb; [now apply Ha|].
    intros ->. contradiction.
Qed.

Lemma sorted_strict (l : list string) :
  NoDup l -> StronglySorted (fun a b => String.ltb a b = true) (sorted l).
Proof.
  intros Hnd. apply StronglySorted_strict; [apply sorted_StronglySorted|].
  apply (Permutation_NoDup (l := l)); [|assumption].
  symmetry. apply sorted_Permutation.
Qed.

Lemma In_sorted (l : list string) (x : string) : In x (sorted l) <-> In x l.
Proof.
  split; apply Permutation_in; [|symmetry]; apply sorted_Permutation.
Qed.

Lemma StronglySorted_unique (l1 l2 : list string) :
  StronglySorted (fun a b => String.leb a b = true) l1 ->
  StronglySorted (fun a b => String.leb a b = true) l2 ->
  Permutation l1 l2 -> l1 = l2.
Proof.
  intros H1. revert l2.
  induction H1 as [|a l1 Hl1 IH Ha]; intros l2 H2 Hp.
  - apply Permutation_nil in Hp. now subst.
  - destruct H2 as [|b l2 Hl2 Hb].
    + symmetry in Hp. apply Permutation_nil in Hp. discriminate.
    + assert (Hab : a = b).
      { assert (HIna : In a (b :: l2))
          by (apply (Permutation_in _ Hp); now left).
        assert (HInb : In b (a :: l1))
          by (apply (Permutation_in _ (Permutation_sym Hp)); now left).
        destruct HIna as [->|HIna]; [reflexivity|].
        destruct HInb as [->|HInb]; [reflexivity|].
        rewrite Forall_forall in Ha, Hb.
        apply String.leb_antisym; [now apply Ha | now apply Hb]. }
      subst b. f_equal. apply IH; [assumption|].
      now apply Permutation_cons_inv in Hp.
Qed.

(** Sorting forgets the order of the keys in the dictionary. *)
Lemma sorted_Permutation_eq (l1 l2 : list string) :
  Permutation l1 l2 -> sorted l1 = sorted l2.
Proof.
  intros Hp. apply StronglySorted_unique; try apply sorted_StronglySorted.
  rewrite (sorted_Permutation l1), (sorted_Permutation l2). exact Hp.
Qed.

Lemma In_fold_note_seen (l seen : list string) (x : string) :
  In x (fold_left note_seen l seen) <-> In x seen \/ In x l.
Proof.
  revert seen. induction l as [|y l IH]; intros seen; simpl.
  - tauto.
  - rewrite IH. unfold note_seen.
    destruct (in_dec string_dec y seen) as [Hy|Hy].
    + split; [tauto|]. intros [H|[<-|H]]; tauto.
    + rewrite in_app_iff. simpl. tauto.
Qed.

Lemma In_keys_aggregate (rows : list row) (s : string) :
  In s (keys (fold_left store_row rows []))
  <-> In s (schemas_of (map item_of_row rows)).
Proof.
  rewrite keys_fold_store_row, In_fold_note_seen, schemas_of_rows.
  simpl. tauto.
Qed.

Lemma In_tables_aggregate (rows : list row) (s t : string) :
  In t (keys (dd_get [] s (fold_left store_row rows [])))
  <-> In t (tables_of s (map item_of_row rows)).
Proof.
  rewrite tables_fold_store_row, In_fold_note_seen, tables_of_rows.
  simpl. tauto.
Qed.

Lemma NoDup_tables (org : schema_map) (s : string) :
  well_keyed org -> NoDup (keys (dd_get [] s org)).
Proof.
  intros [_ Ht]. unfold dd_get. destruct (lookup s org) as [tables|] eqn:E.
  - apply lookup_Some_In in E. rewrite Forall_forall in Ht.
    exact (Ht _ E).
  - constructor.
Qed.

(** ** Order of the summary *)

(** X10: the summary lists the schemas of the input in strictly ascending
    code-point order, each once, and under each schema announces the number
    of its tables and lists them in strictly ascending order, each once. *)
Theorem summary_lists_schemas_and_tables_sorted
    (schema_data : list item) (org : schema_map) (timestamp : string) :
  aggregate schema_data = Ok org ->
  exists schemas,
    render_summary org timestamp
    = ("# Resumen del Esquema de Base de Datos" ++ nl ++ nl
       ++ "*Generado el: " ++ timestamp ++ "*" ++ nl ++ nl
       ++ text_of (map (schema_section org) schemas))%string
    /\ StronglySorted (fun a b => String.ltb a b = true) schemas
    /\ (forall s, In s schemas <-> In s (schemas_of schema_data))
    /\ Forall (fun s =>
                 exists tables,
                   schema_section org s
                   = ("## Esquema: " ++ s ++ nl ++ nl
                      ++ "Contiene " ++ str_of_nat (List.length tables)
                      ++ " tabla(s):" ++ nl ++ nl
                      ++ text_of (map (fun t =>
                                         table_section t
                                           (dd_get new_table t (dd_get [] s org)))
                                      tables)
                      ++ nl)%string
                   /\ StronglySorted (fun a b => String.ltb a b = true) tables
                   /\ (forall t, In t tables <-> In t (tables_of s schema_data)))
              schemas.
Proof.
  intros H. pose proof (well_keyed_aggregate _ _ H) as Hwk.
  rows_of_input H rows Hrows. subst schema_data.
  exists (sorted (keys (fold_left store_row rows []))). split.
  - rewrite render_summary_text. now rewrite !append_assoc.
  - split; [apply sorted_strict; apply Hwk|]. split.
    + intros s. rewrite In_sorted. apply In_keys_aggregate.
    + apply Forall_forall. intros s _.
      exists (sorted (keys (dd_get [] s (fold_left store_row rows [])))).
      split; [reflexivity|]. split.
      * apply sorted_strict. now apply NoDup_tables.
      * intros t. rewrite In_sorted. apply In_tables_aggregate.
Qed.

Lemma summary_order_witness :
  exists schemas,
    render_summary sample_org sample_timestamp
    = ("# Resumen del Esquema de Base de Datos" ++ nl ++ nl
       ++ "*Generado el: " ++ sample_timestamp ++ "*" ++ nl ++ nl
       ++ text_of (map (schema_section sample_org) schemas))%string
    /\ StronglySorted (fun a b => String.ltb a b = true) schemas
    /\ (forall s, In s schemas <-> In s (schemas_of sample_data))
    /\ Forall (fun s =>
                 exists tables,
                   schema_section sample_org s
                   = ("## Esquema: " ++ s ++ nl ++ nl
                      ++ "Contiene " ++ str_of_nat (List.length tables)
                      ++ " tabla(s):" ++ nl ++ nl
                      ++ text_of (map (fun t =>
                                         table_section t
                                           (dd_get new_table t
                                                   (dd_get [] s sample_org)))
                                      tables)
                      ++ nl)%string
                   /\ StronglySorted (fun a b => String.ltb a b = true) tables
                   /\ (forall t, In t tables <-> In t (tables_of s sample_data)))
              schemas.
Proof.
  exact (summary_lists_schemas_and_tables_sorted sample_data sample_org
           sample_timestamp eq_refl).
Defined.

(** ** Interleaving of the records of different tables *)

Lemma item_of_row_injective (r1 r2 : row) :
  item_of_row r1 = item_of_row r2 -> r1 = r2.
Proof.
  intros E. apply read_item_Ok in E.
  rewrite (proj2 (read_item_Ok _ r1) eq_refl) in E. congruence.
Qed.

Lemma map_item_of_row_injective (l1 l2 : list row) :
  map item_of_row l1 = map item_of_row l2 -> l1 = l2.
Proof.
  revert l2. induction l1 as [|r1 l1 IH]; intros [|r2 l2]; cbn [map];
    try discriminate; [reflexivity|].
  intros E.
  pose proof (f_equal (hd (item_of_row r1)) E) as E1.
  pose proof (f_equal (@tl item) E) as E2. cbn [hd tl] in E1, E2.
  f_equal; [now apply item_of_row_injective | now apply IH].
Qed.

Lemma In_schemas_rows_of (rows : list row) (s : string) :
  In s (map schema rows) <-> exists t, rows_of s t rows <> [].
Proof.
  split.
  - intros HIn. apply in_map_iff in HIn. destruct HIn as (r & <- & HIn).
    exists (table r). apply rows_of_nonempty. now exists r.
  - intros (t & Hne). apply rows_of_nonempty in Hne.
    destruct Hne as (r & HIn & <- & _). now apply in_map.
Qed.

Lemma In_tables_rows_of (rows : list row) (s t : string) :
  In t (map table (filter (fun r => String.eqb (schema r) s) rows))
  <-> rows_of s t rows <> [].
Proof.
  rewrite rows_of_nonempty, in_map_iff. split.
  - intros (r & <- & HIn). apply filter_In in HIn. destruct HIn as [HIn Hs].
    apply String.eqb_eq in Hs. now exists r.
  - intros (r & HIn & Hs & Ht). exists r. split; [assumption|].
    apply filter_In. split; [assumption|]. now apply String.eqb_eq.
Qed.

(** Two maps with the same sorted keys and the same entries render alike. *)
Lemma renderers_agree (org1 org2 : schema_map) (timestamp : string) :
  sorted (keys org1) = sorted (keys org2) ->
  (forall s, sorted (keys (dd_get [] s org1)) = sorted (keys (dd_get [] s org2))) ->
  (forall s t, lookup_table s t org1 = lookup_table s t org2) ->
  render_summary org1 timestamp = render_summary org2 timestamp
  /\ render_relations org1 timestamp = render_relations org2 timestamp.
Proof.
  intros Hs Ht Hl.
  assert (Hget : forall s t, dd_get new_table t (dd_get [] s org1)
                             = dd_get new_table t (dd_get [] s org2)).
  { intros s t. now rewrite !dd_get_table, Hl. }
  split.
  - assert (Hsec : forall s, schema_section org1 s = schema_section org2 s).
    { intros s. unfold schema_section. rewrite Ht.
      rewrite (map_ext
                 (fun t => table_section t (dd_get new_table t (dd_get [] s org1)))
                 (fun t => table_section t (dd_get new_table t (dd_get [] s org2))))
        by (intros t; now rewrite Hget).
      reflexivity. }
    rewrite !render_summary_text, Hs. now rewrite (map_ext _ _ Hsec).
  - rewrite !render_relations_text.
    assert (He : entity_blocks org1 = entity_blocks org2).
    { unfold entity_blocks. rewrite Hs. apply flat_map_ext. intros s.
      rewrite Ht. apply map_ext. intros t. now rewrite Hget. }
    assert (Hr : relationship_lines org1 = relationship_lines org2).
    { unfold relationship_lines. rewrite Hs. apply flat_map_ext. intros s.
      rewrite Ht. apply flat_map_ext. intros t. now rewrite Hget. }
    now rewrite He, Hr.
Qed.

(** X11: the summary and the diagram do not depend on how the records of
    different tables are interleaved in the input: two valid inputs in which
    every table has the same records in the same order give the same
    summary and the same diagram. *)
Theorem summary_and_diagram_ignore_interleaving
    (schema_data1 schema_data2 : list item) (org1 org2 : schema_map)
    (timestamp : string) :
  aggregate schema_data1 = Ok org1 ->
  aggregate schema_data2 = Ok org2 ->
  (forall s t, filter (item_in_table s t) schema_data1
               = filter (item_in_table s t) schema_data2) ->
  render_summary org1 timestamp = render_summary org2 timestamp
  /\ render_relations org1 timestamp = render_relations org2 timestamp.
Proof.
  intros H1 H2 Hsame.
  pose proof (well_keyed_aggregate _ _ H1) as Hwk1.
  pose proof (well_keyed_aggregate _ _ H2) as Hwk2.
  destruct (aggregate_rows _ _ H1) as (rows1 & Hrows1 & ->).
  destruct (aggregate_rows _ _ H2) as (rows2 & Hrows2 & ->).
  apply read_all_Ok in Hrows1, Hrows2. subst schema_data1 schema_data2.
  assert (Hrows : forall s t, rows_of s t rows1 = rows_of s t rows2).
  { intros s t. apply map_item_of_row_injective.
    rewrite <- !filter_item_in_table. apply Hsame. }
  apply renderers_agree.
  - apply sorted_Permutation_eq. apply NoDup_Permutation; try apply Hwk1; try apply Hwk2.
    intros s. rewrite !In_keys_aggregate, !schemas_of_rows, !In_schemas_rows_of.
    split; intros (t & Ht); exists t; [rewrite <- Hrows | rewrite Hrows]; exact Ht.
  - intros s. apply sorted_Permutation_eq.
    apply NoDup_Permutation; try now apply NoDup_tables.
    intros t. rewrite !In_tables_aggregate, !tables_of_rows, !In_tables_rows_of.
    now rewrite Hrows.
  - intros s t. now rewrite !lookup_table_aggregate, Hrows.
Qed.

Lemma interleaving_witness :
  render_summary sample_org sample_timestamp
  = render_summary sample_org_reordered sample_timestamp
  /\ render_relations sample_org sample_timestamp
     = render_relations sample_org_reordered sample_timestamp.
Proof.
  apply (summary_and_diagram_ignore_interleaving
           sample_data sample_data_reordered sample_org sample_org_reordered
           sample_timestamp eq_refl eq_refl).
  intros s t. unfold sample_data, sample_data_reordered, users_id, mk_item.
  cbn [filter item_in_table item_schema item_table].
  destruct (String.eqb "public" s) eqn:E1; destruct (String.eqb "auth" s) eqn:E2;
    destruct (String.eqb "users" t) eqn:E3; destruct (String.eqb "posts" t) eqn:E4;
    destruct (String.eqb "keys" t) eqn:E5;
    cbn [andb]; try reflexivity; exfalso;
    repeat match goal with
           | H : String.eqb _ _ = true |- _ => apply String.eqb_eq in H
           end;
    congruence.
Defined.

(** ** Entities of the diagram *)

Lemma length_flat_map_sum {A B : Type} (f : A -> list B) (l : list A) :
  List.length (flat_map f l) = list_sum (map (fun x => List.length (f x)) l).
Proof.
  induction l as [|x l IH]; simpl; [reflexivity|].
  now rewrite length_app, IH.
Qed.

Lemma entity_blocks_Permutation (org : schema_map) :
  well_keyed org ->
  Permutation (entity_blocks org)
              (flat_map (fun e => map (fun e' => entity_block (fst e) (fst e') (snd e'))
                                      (snd e))
                        org).
Proof.
  intros [Hs Ht]. unfold entity_blocks. etransitivity.
  - apply (flat_map_over_sorted_keys []
             (fun s tables =>
                map (fun t => entity_block s t (dd_get new_table t tables))
                    (sorted (keys tables)))).
    exact Hs.
  - apply Permutation_flat_map_pointwise. rewrite Forall_forall in *.
    intros [s tables] HIn. simpl.
    rewrite <- (map_over_keys new_table (entity_block s) tables (Ht _ HIn)).
    apply Permutation_map. apply sorted_Permutation.
Qed.

(** X12: the diagram declares one entity for each table of the aggregated
    map, before any relationship line, and as many entities as the
    statistics count tables. *)
Theorem diagram_declares_each_table_once
    (schema_data : list item) (org : schema_map) (timestamp : string) :
  aggregate schema_data = Ok org ->
  exists blocks,
    render_relations org timestamp
    = (relations_header timestamp ++ text_of blocks
       ++ text_of (relationship_lines org) ++ "```" ++ nl)%string
    /\ Permutation blocks
         (flat_map (fun e => map (fun e' => entity_block (fst e) (fst e') (snd e'))
                                 (snd e))
                   org)
    /\ List.length blocks = st_tables (build_stats org timestamp).
Proof.
  intros H. pose proof (well_keyed_aggregate _ _ H) as Hwk.
  pose proof (entity_blocks_Permutation org Hwk) as Hperm.
  exists (entity_blocks org). split.
  - unfold render_relations.
    rewrite relations_links_text, relations_entities_text.
    now rewrite !append_assoc.
  - split; [exact Hperm|]. rewrite (Permutation_length Hperm). simpl.
    rewrite (count_totals_sums org Hwk). simpl.
    rewrite length_flat_map_sum. f_equal. apply map_ext. intros e.
    now rewrite length_map.
Qed.

Lemma diagram_entities_witness :
  exists blocks,
    render_relations sample_org sample_timestamp
    = (relations_header sample_timestamp ++ text_of blocks
       ++ text_of (relationship_lines sample_org) ++ "```" ++ nl)%string
    /\ Permutation blocks
         (flat_map (fun e => map (fun e' => entity_block (fst e) (fst e') (snd e'))
                                 (snd e))
                   sample_org)
    /\ List.length blocks = st_tables (build_stats sample_org sample_timestamp).
Proof.
  exact (diagram_declares_each_table_once sample_data sample_org sample_timestamp
           eq_refl).
Defined.

(** ** Table counts of the summary *)

Lemma lookup_map_values {V W : Type} (F : string * V -> W) (k : string)
    (d : defaultdict V) :
  lookup k (map (fun e => (fst e, F e)) d)
  = match lookup k d with
    | Some v => Some (F (k, v))
    | None => None
    end.
Proof.
  induction d as [|[k' v] d IH]; simpl; [reflexivity|].
  destruct (String.eqb_spec k k') as [->|Hne]; [reflexivity | exact IH].
Qed.

(** X13: the number of tables the summary announces under a schema is the
    table count the statistics give for that schema, and it is the number
    of table sections that follow the announcement. *)
Theorem summary_table_count_matches_statistics
    (schema_data : list item) (org : schema_map) (timestamp : string)
    (s : string) (ss : schema_stats) :
  aggregate schema_data = Ok org ->
  lookup s (st_schema_details (build_stats org timestamp)) = Some ss ->
  exists tables,
    (forall summary,
        summary_schema org summary s
        = (summary ++ "## Esquema: " ++ s ++ nl ++ nl
           ++ "Contiene " ++ str_of_nat (ss_tables ss) ++ " tabla(s):" ++ nl ++ nl
           ++ text_of (map (fun t =>
                              table_section t (dd_get new_table t (dd_get [] s org)))
                           tables)
           ++ nl)%string)
    /\ List.length tables = ss_tables ss
    /\ List.length (ss_table_details ss) = ss_tables ss.
Proof.
  intros H Hl. pose proof (well_keyed_aggregate _ _ H) as Hwk.
  simpl in Hl. rewrite (schema_details_of_map org Hwk) in Hl.
  rewrite (lookup_map_values
             (fun e => SchemaStats (List.length (snd e))
                                   (map (fun e' => stats_of_table (fst e') (snd e'))
                                        (snd e)))) in Hl.
  destruct (lookup s org) as [tables0|] eqn:E; [|discriminate].
  injection Hl as <-. cbn [ss_tables ss_table_details snd].
  exists (sorted (keys (dd_get [] s org))).
  assert (Hlen : List.length (sorted (keys (dd_get [] s org))) = List.length tables0).
  { rewrite (Permutation_length (sorted_Permutation _)).
    unfold dd_get. rewrite E. unfold keys. apply length_map. }
  split; [|split; [exact Hlen | apply length_map]].
  intros summary. rewrite summary_schema_section. unfold schema_section.
  now rewrite Hlen.
Qed.

Lemma summary_table_count_witness :
  exists tables,
    (forall summary,
        summary_schema sample_org summary "public"
        = (summary ++ "## Esquema: " ++ "public" ++ nl ++ nl
           ++ "Contiene "
           ++ str_of_nat
                (ss_tables
                   (SchemaStats 2 [TableStats "users" 1 true 0 0;
                                   TableStats "posts" 3 true 2 0]))
           ++ " tabla(s):" ++ nl ++ nl
           ++ text_of (map (fun t =>
                              table_section t
                                (dd_get new_table t (dd_get [] "public" sample_org)))
                           tables)
           ++ nl)%string)
    /\ List.length tables
       = ss_tables (SchemaStats 2 [TableStats "users" 1 true 0 0;
                                   TableStats "posts" 3 true 2 0])
    /\ List.length (ss_table_details
                      (SchemaStats 2 [TableStats "users" 1 true 0 0;
                                      TableStats "posts" 3 true 2 0]))
       = ss_tables (SchemaStats 2 [TableStats "users" 1 true 0 0;
                                   TableStats "posts" 3 true 2 0]).
Proof.
  exact (summary_table_count_matches_statistics sample_data sample_org
           sample_timestamp "public" _ eq_refl eq_refl).
Defined.

(** ** Characters of the statistics document *)

Section AsciiOnly.
Local Open Scope string_scope.

Lemma ascii_text_append (a b : string) :
  ascii_text (a ++ b) = ascii_text a && ascii_text b.
Proof.
  induction a as [|c a IH]; simpl; [reflexivity|].
  now rewrite IH, andb_assoc.
Qed.

Lemma ascii_text_concat (sep : string) (l : list string) :
  ascii_text sep = true -> Forall (fun s => ascii_text s = true) l ->
  ascii_text (String.concat sep l) = true.
Proof.
  intros Hsep. induction 1 as [|x l Hx Hl IH]; [reflexivity|].
  destruct l as [|y l]; [exact Hx|].
  change (String.concat sep (x :: y :: l))
    with (x ++ sep ++ String.concat sep (y :: l)).
  now rewrite !ascii_text_append, Hx, Hsep, IH.
Qed.

Lemma hex_digit_ascii (n : N) : ascii_char (hex_digit n) = true.
Proof.
  unfold hex_digit. generalize (N.to_nat n) as k. intros k.
  do 16 (destruct k as [|k]; [reflexivity|]). reflexivity.
Qed.

Lemma u_escape_ascii (n : N) : ascii_text (u_escape n) = true.
Proof.
  unfold u_escape. simpl. now rewrite !hex_digit_ascii.
Qed.

Lemma escape_code_point_ascii (n : N) : ascii_text (escape_code_point n) = true.
Proof.
  unfold escape_code_point. destruct (N.ltb n 65536).
  - apply u_escape_ascii.
  - now rewrite ascii_text_append, !u_escape_ascii.
Qed.

Lemma escape_ascii_ascii (c : ascii) : ascii_text (escape_ascii c) = true.
Proof.
  unfold escape_ascii.
  repeat match goal with
         | |- context [if N.eqb ?a ?b then _ else _] =>
             destruct (N.eqb a b); [reflexivity|]
         end.
  destruct (N.leb 32 (N_of_ascii c) && N.leb (N_of_ascii c) 126) eqn:E.
  - simpl. unfold ascii_char. now rewrite E.
  - apply u_escape_ascii.
Qed.

Lemma encode_ascii_bounded (n : nat) (s : string) :
  String.length s <= n -> ascii_text (encode_basestring_ascii s) = true.
Proof.
  revert s. induction n as [|n IH]; intros s Hlen.
  - destruct s; [reflexivity | simpl in Hlen; lia].
  - destruct s as [|c1 rest1]; [reflexivity|].
    cbn [encode_basestring_ascii]. simpl in Hlen.
    destruct (N.ltb (N_of_ascii c1) 128).
    { rewrite ascii_text_append, escape_ascii_ascii. apply IH. lia. }
    destruct (N.ltb (N_of_ascii c1) 224).
    { destruct rest1 as [|c2 rest2]; [apply escape_code_point_ascii|].
      rewrite ascii_text_append, escape_code_point_ascii. apply IH.
      simpl in Hlen. lia. }
    destruct (N.ltb (N_of_ascii c1) 240).
    { destruct rest1 as [|c2 [|c3 rest3]]; try apply escape_code_point_ascii.
      rewrite ascii_text_append, escape_code_point_ascii. apply IH.
      simpl in Hlen. lia. }
    destruct rest1 as [|c2 [|c3 [|c4 rest4]]]; try apply escape_code_point_ascii.
    rewrite ascii_text_append, escape_code_point_ascii. apply IH.
    simpl in Hlen. lia.
Qed.

Lemma json_string_ascii (s : string) : ascii_text (json_string s) = true.
Proof.
  unfold json_string. rewrite !ascii_text_append.
  now rewrite (encode_ascii_bounded (String.length s) s (le_n _)).
Qed.

Lemma string_of_uint_ascii (d : uint) :
  ascii_text (NilEmpty.string_of_uint d) = true.
Proof. induction d; simpl; auto. Qed.

Lemma str_of_nat_ascii (n : nat) : ascii_text (str_of_nat n) = true.
Proof.
  unfold str_of_nat, NilZero.string_of_uint.
  destruct (Nat.to_uint n) eqn:E; try reflexivity;
    rewrite <- E; apply string_of_uint_ascii.
Qed.

Lemma spaces_ascii (n : nat) : ascii_text (spaces n) = true.
Proof. induction n; simpl; auto. Qed.

Lemma newline_indent_ascii (level : nat) :
  ascii_text (newline_indent level) = true.
Proof. unfold newline_indent. simpl. apply spaces_ascii. Qed.

Lemma dumps_ascii_bounded (n : nat) (j : json) (level : nat) :
  depth j <= n -> ascii_text (dumps level j) = true.
Proof.
  revert j level. induction n as [|n IH]; intros j level Hd.
  - destruct j as [k|b|s|items|members]; simpl in Hd; try lia.
    + apply str_of_nat_ascii.
    + now destruct b.
    + apply json_string_ascii.
  - destruct j as [k|b|s|items|members].
    + apply str_of_nat_ascii.
    + now destruct b.
    + apply json_string_ascii.
    + destruct items as [|x items]; [reflexivity|].
      cbn [dumps]. rewrite !ascii_text_append, !newline_indent_ascii.
      rewrite ascii_text_concat; [reflexivity | |].
      * now rewrite ascii_text_append, newline_indent_ascii.
      * apply Forall_forall. intros t HIn. apply in_map_iff in HIn.
        destruct HIn as (y & <- & HIn). apply IH. simpl in Hd.
        pose proof (proj1 (list_max_le (map depth (x :: items)) n)
                          ltac:(simpl; lia)) as HF.
        rewrite Forall_forall in HF. apply HF. now apply in_map.
    + destruct members as [|x members]; [reflexivity|].
      cbn [dumps]. rewrite !ascii_text_append, !newline_indent_ascii.
      rewrite ascii_text_concat; [reflexivity | |].
      * now rewrite ascii_text_append, newline_indent_ascii.
      * apply Forall_forall. intros t HIn. apply in_map_iff in HIn.
        destruct HIn as (y & <- & HIn).
        rewrite !ascii_text_append, json_string_ascii. simpl. apply IH.
        simpl in Hd.
        pose proof (proj1 (list_max_le
                             (map (fun member => depth (snd member)) (x :: members)) n)
                          ltac:(simpl; lia)) as HF.
        rewrite Forall_forall in HF.
        apply (HF (depth (snd y))).
        now apply (in_map (fun member => depth (snd member))).
Qed.

(** X14: the statistics document contains only printable ASCII characters
    and line feeds, whatever characters the schema and table names and the
    timestamp contain: every other character is written as an escape. *)
Theorem statistics_document_is_ascii (org : schema_map) (timestamp : string) :
  ascii_text (render_stats org timestamp) = true.
Proof.
  unfold render_stats. apply (dumps_ascii_bounded _ _ 0 (le_n _)).
Qed.

End AsciiOnly.

(** ** The pattern that extracts the JSON part *)

Lemma match_star_unfold (class : string -> bool) (p : list atom) (l : list string) :
  match_here (Star class :: p) l
  = match l with
    | ch :: l' =>
        if class ch then
          match match_here (Star class :: p) l' with
          | Some rest => Some rest
          | None => match_here p l
          end
        else match_here p l
    | [] => match_here p []
    end.
Proof. destruct l; reflexivity. Qed.

Lemma matches_star_cons (class : string -> bool) (p : list atom)
    (ch : string) (m : list string) :
  class ch = true -> matches (Star class :: p) m ->
  matches (Star class :: p) (ch :: m).
Proof.
  intros Hch Hm. inversion Hm as [| |? ? taken l Htaken Hl]; subst.
  change (ch :: taken ++ l) with ((ch :: taken) ++ l).
  constructor; [now constructor | assumption].
Qed.

Lemma match_here_sound (p : list atom) (l rest : list string) :
  match_here p l = Some rest -> exists m, l = m ++ rest /\ matches p m.
Proof.
  revert l rest. induction p as [|a p IH]; intros l rest H.
  - simpl in H. injection H as ->. exists []. split; [reflexivity | constructor].
  - destruct a as [c|class].
    + destruct l as [|ch l]; simpl in H; [discriminate|].
      destruct (String.eqb_spec ch c) as [->|]; [|discriminate].
      destruct (IH _ _ H) as (m & -> & Hm). exists (c :: m).
      split; [reflexivity | now constructor].
    + revert rest H. induction l as [|ch l IHl]; intros rest H;
        rewrite match_star_unfold in H.
      * destruct (IH _ _ H) as (m & Hl & Hm). exists m. split; [assumption|].
        apply (matches_star class p [] m); [constructor | assumption].
      * destruct (class ch) eqn:Hch.
        -- destruct (match_here (Star class :: p) l) as [r|] eqn:E.
           ++ injection H as ->. destruct (IHl _ eq_refl) as (m & -> & Hm).
              exists (ch :: m). split; [reflexivity|].
              now apply matches_star_cons.
           ++ destruct (IH _ _ H) as (m & Hl & Hm). exists m.
              split; [assumption|].
              apply (matches_star class p [] m); [constructor | assumption].
        -- destruct (IH _ _ H) as (m & Hl & Hm). exists m.
           split; [assumption|].
           apply (matches_star class p [] m); [constructor | assumption].
Qed.

Lemma firstn_matched (m rest : list string) :
  firstn (List.length (m ++ rest) - List.length rest) (m ++ rest) = m.
Proof.
  rewrite length_app, Nat.add_sub, firstn_app, firstn_all, Nat.sub_diag.
  simpl. apply app_nil_r.
Qed.

Lemma re_search_unfold (p : list atom) (l : list string) :
  re_search p l
  = match match_here p l with
    | Some rest => Some ([], firstn (List.length l - List.length rest) l)
    | None =>
        match l with
        | [] => None
        | ch :: l' =>
            match re_search p l' with
            | Some (skipped, matched) => Some (ch :: skipped, matched)
            | None => None
            end
        end
    end.
Proof. destruct l; reflexivity. Qed.

Lemma re_search_sound (p : list atom) (l skipped matched : list string) :
  re_search p l = Some (skipped, matched) ->
  exists rest, l = skipped ++ matched ++ rest /\ matches p matched.
Proof.
  revert skipped. induction l as [|ch l IH]; intros skipped H;
    rewrite re_search_unfold in H;
    match type of H with
    | context [match_here p ?x] => destruct (match_here p x) as [rest|] eqn:E
    end;
    try discriminate.
  - destruct (match_here_sound _ _ _ E) as (m & Hl & Hm).
    pose proof (firstn_matched m rest) as Hf. rewrite <- Hl in Hf.
    rewrite Hf in H. injection H as <- <-.
    exists rest. split; [exact Hl | exact Hm].
  - destruct (match_here_sound _ _ _ E) as (m & Hl & Hm).
    pose proof (firstn_matched m rest) as Hf. rewrite <- Hl in Hf.
    rewrite Hf in H. injection H as <- <-.
    exists rest. split; [exact Hl | exact Hm].
  - destruct (re_search p l) as [[skipped' matched']|] eqn:E'; [|discriminate].
    injection H as <- <-. destruct (IH _ eq_refl) as (rest & -> & Hm).
    exists rest. split; [reflexivity | exact Hm].
Qed.

Lemma json_array_shape (m : list string) :
  matches json_array_pattern m ->
  exists ws1 body ws2,
    m = array_of_objects ws1 body ws2
    /\ Forall (fun ch => is_space ch = true) ws1
    /\ Forall (fun ch => is_space ch = true) ws2.
Proof.
  unfold json_array_pattern. intros H.
  repeat match goal with
         | H : matches (_ :: _) _ |- _ => inversion H; subst; clear H
         | H : matches [] _ |- _ => inversion H; subst; clear H
         end.
  match goal with
  | H1 : Forall _ ?w1, H2 : Forall (fun ch => any_character ch = true) ?b,
    H3 : Forall _ ?w2 |- _ => exists w1, b, w2
  end.
  repeat split; assumption.
Qed.

Lemma text_of_characters_bounded (n : nat) (s : string) :
  String.length s <= n -> text_of (characters s) = s.
Proof.
  revert s. induction n as [|n IH]; intros s Hlen.
  - destruct s; [reflexivity | simpl in Hlen; lia].
  - destruct s as [|c1 rest1]; [reflexivity|].
    cbn [characters]. simpl in Hlen.
    destruct (N.ltb (N_of_ascii c1) 128).
    { simpl. rewrite IH by lia. reflexivity. }
    destruct (N.ltb (N_of_ascii c1) 224).
    { destruct rest1 as [|c2 rest2]; [reflexivity|].
      simpl in *. rewrite IH by lia. reflexivity. }
    destruct (N.ltb (N_of_ascii c1) 240).
    { destruct rest1 as [|c2 [|c3 rest3]]; try reflexivity.
      simpl in *. rewrite IH by lia. reflexivity. }
    destruct rest1 as [|c2 [|c3 [|c4 rest4]]]; try reflexivity.
    simpl in *. rewrite IH by lia. reflexivity.
Qed.

Lemma text_of_characters (s : string) : text_of (characters s) = s.
Proof. apply (text_of_characters_bounded (String.length s)), le_n. Qed.

Lemma extract_json_Some (schema_content group0 : string) :
  extract_json schema_content = Some group0 ->
  exists skipped rest ws1 body ws2,
    characters schema_content
    = skipped ++ array_of_objects ws1 body ws2 ++ rest
    /\ group0 = text_of (array_of_objects ws1 body ws2)
    /\ Forall (fun ch => is_space ch = true) ws1
    /\ Forall (fun ch => is_space ch = true) ws2.
Proof.
  unfold extract_json. intros H.
  destruct (re_search json_array_pattern (characters schema_content))
    as [[skipped matched]|] eqn:E; [|discriminate].
  injection H as <-. destruct (re_search_sound _ _ _ _ E) as (rest & Hl & Hm).
  destruct (json_array_shape _ Hm) as (ws1 & body & ws2 & -> & H1 & H2).
  exists skipped, rest, ws1, body, ws2. repeat split; assumption.
Qed.

(** X15: what the pattern extracts is a part of the content that consists
    of an opening bracket, white space, an opening brace, any text, a
    closing brace, white space and a closing bracket. *)
Theorem extracted_text_is_a_bracketed_part (schema_content group0 : string) :
  extract_json schema_content = Some group0 ->
  exists skipped rest ws1 body ws2,
    characters schema_content
    = skipped ++ array_of_objects ws1 body ws2 ++ rest
    /\ group0 = text_of (array_of_objects ws1 body ws2)
    /\ schema_content = (text_of skipped ++ group0 ++ text_of rest)%string
    /\ Forall (fun ch => is_space ch = true) ws1
    /\ Forall (fun ch => is_space ch = true) ws2.
Proof.
  intros H.
  destruct (extract_json_Some _ _ H)
    as (skipped & rest & ws1 & body & ws2 & Hl & -> & H1 & H2).
  exists skipped, rest, ws1, body, ws2.
  split; [exact Hl|]. split; [reflexivity|]. split; [|now split].
  rewrite <- !text_of_app, <- Hl. symmetry. apply text_of_characters.
Qed.

Lemma extracted_text_witness :
  exists skipped rest ws1 body ws2,
    characters wrapped_sample
    = skipped ++ array_of_objects ws1 body ws2 ++ rest
    /\ ("[ {" ++ dquote ++ "schema" ++ dquote ++ ": 1} ]")%string
       = text_of (array_of_objects ws1 body ws2)
    /\ wrapped_sample
       = (text_of skipped
          ++ ("[ {" ++ dquote ++ "schema" ++ dquote ++ ": 1} ]")
          ++ text_of rest)%string
    /\ Forall (fun ch => is_space ch = true) ws1
    /\ Forall (fun ch => is_space ch = true) ws2.
Proof.
  exact (extracted_text_is_a_bracketed_part wrapped_sample _ eq_refl).
Defined.

(** *** The match found in a wrapped array *)

Lemma match_lit_same (c : string) (p : list atom) (l : list string) :
  match_here (Lit c :: p) (c :: l) = match_here p l.
Proof. cbn [match_here]. now rewrite String.eqb_refl. Qed.

Lemma match_lit_other (c ch : string) (p : list atom) (l : list string) :
  String.eqb ch c = false -> match_here (Lit c :: p) (ch :: l) = None.
Proof. intros H. cbn [match_here]. now rewrite H. Qed.

Lemma match_closing (ws2 rest : list string) :
  Forall (fun ch => is_space ch = true) ws2 ->
  match_here closing ("}"%string :: ws2 ++ "]"%string :: rest) = Some rest.
Proof.
  intros Hws. unfold closing. rewrite match_lit_same.
  induction Hws as [|w ws2 Hw _ IH]; rewrite match_star_unfold; cbn [List.app].
  - replace (is_space "]") with false by reflexivity.
    now rewrite match_lit_same.
  - now rewrite Hw, IH.
Qed.

Lemma closing_needs_bracket (l rest : list string) :
  match_here closing l = Some rest -> In "]"%string l.
Proof.
  intros H. destruct (match_here_sound _ _ _ H) as (m & -> & Hm).
  unfold closing in Hm.
  repeat match goal with
         | H : matches (_ :: _) _ |- _ => inversion H; subst; clear H
         | H : matches [] _ |- _ => inversion H; subst; clear H
         end.
  apply in_or_app. left. right. apply in_or_app. right. now left.
Qed.

Lemma any_star_none (l : list string) :
  ~ In "]"%string l -> match_here (Star any_character :: closing) l = None.
Proof.
  induction l as [|ch l IH]; intros Hnot; rewrite match_star_unfold.
  - reflexivity.
  - cbn [any_character]. rewrite IH by (intros H; apply Hnot; now right).
    destruct (match_here closing (ch :: l)) as [r|] eqn:E; [|reflexivity].
    exfalso. apply Hnot. exact (closing_needs_bracket _ _ E).
Qed.

Lemma space_is_not_brace (w : string) :
  is_space w = true -> String.eqb w "}" = false.
Proof.
  intros Hw. destruct (String.eqb_spec w "}") as [->|]; [|reflexivity].
  discriminate Hw.
Qed.

Lemma any_star_after_last (ws2 rest : list string) :
  Forall (fun ch => is_space ch = true) ws2 -> ~ In "]"%string rest ->
  match_here (Star any_character :: closing) (ws2 ++ "]"%string :: rest) = None.
Proof.
  intros Hws Hnot.
  induction Hws as [|w ws2 Hw _ IH]; rewrite match_star_unfold;
    cbn [List.app any_character].
  - rewrite (any_star_none rest Hnot). unfold closing.
    now rewrite match_lit_other.
  - rewrite IH. unfold closing.
    now rewrite (match_lit_other _ _ _ _ (space_is_not_brace w Hw)).
Qed.

Lemma any_star_last_closing (body ws2 rest : list string) :
  Forall (fun ch => is_space ch = true) ws2 -> ~ In "]"%string rest ->
  match_here (Star any_character :: closing)
             (body ++ "}"%string :: ws2 ++ "]"%string :: rest)
  = Some rest.
Proof.
  intros Hws Hnot.
  induction body as [|ch body IH]; rewrite match_star_unfold;
    cbn [List.app any_character].
  - rewrite (any_star_after_last ws2 rest Hws Hnot).
    now apply match_closing.
  - now rewrite IH.
Qed.

Lemma array_of_objects_app (ws1 body ws2 rest : list string) :
  array_of_objects ws1 body ws2 ++ rest
  = "["%string :: ws1 ++ "{"%string :: body ++ "}"%string
                                    :: ws2 ++ "]"%string :: rest.
Proof.
  unfold array_of_objects. cbn [List.app]. f_equal.
  rewrite <- app_assoc. cbn [List.app]. do 2 f_equal.
  rewrite <- app_assoc. cbn [List.app]. do 2 f_equal.
  now rewrite <- app_assoc.
Qed.

Lemma match_array (ws1 body ws2 rest : list string) :
  Forall (fun ch => is_space ch = true) ws1 ->
  Forall (fun ch => is_space ch = true) ws2 ->
  ~ In "]"%string rest ->
  match_here json_array_pattern (array_of_objects ws1 body ws2 ++ rest)
  = Some rest.
Proof.
  intros Hws1 Hws2 Hnot. rewrite array_of_objects_app.
  unfold json_array_pattern. rewrite match_lit_same.
  change [Lit "}"%string; Star is_space; Lit "]"%string] with closing.
  induction Hws1 as [|w ws1 Hw _ IH]; rewrite match_star_unfold; cbn [List.app].
  - replace (is_space "{") with false by reflexivity.
    rewrite match_lit_same. now apply any_star_last_closing.
  - now rewrite Hw, IH.
Qed.

Lemma re_search_skips (ws1 body ws2 skipped rest : list string) :
  Forall (fun ch => is_space ch = true) ws1 ->
  Forall (fun ch => is_space ch = true) ws2 ->
  ~ In "["%string skipped -> ~ In "]"%string rest ->
  re_search json_array_pattern (skipped ++ array_of_objects ws1 body ws2 ++ rest)
  = Some (skipped, array_of_objects ws1 body ws2).
Proof.
  intros Hws1 Hws2 Hskip Hrest.
  induction skipped as [|ch skipped IH]; rewrite re_search_unfold.
  - cbn [List.app]. rewrite (match_array ws1 body ws2 rest Hws1 Hws2 Hrest).
    now rewrite firstn_matched.
  - cbn [List.app].
    assert (Hch : String.eqb ch "[" = false).
    { apply String.eqb_neq. intros ->. apply Hskip. now left. }
    unfold json_array_pattern at 1. rewrite (match_lit_other _ _ _ _ Hch).
    rewrite IH by (intros H; apply Hskip; now right). reflexivity.
Qed.

(** X16: a text that is not JSON but holds an array of objects, with no
    opening bracket before it and no closing bracket after it, is loaded as
    that array: the pattern extracts exactly the array, which is then
    parsed. *)
Theorem wrapped_array_is_loaded {J : Type} (json_loads : string -> option J)
    (schema_content : string) (before ws1 body ws2 after : list string) :
  json_loads schema_content = None ->
  characters schema_content = before ++ array_of_objects ws1 body ws2 ++ after ->
  Forall (fun ch => is_space ch = true) ws1 ->
  Forall (fun ch => is_space ch = true) ws2 ->
  ~ In "["%string before -> ~ In "]"%string after ->
  extract_json schema_content = Some (text_of (array_of_objects ws1 body ws2))
  /\ load_schema_data json_loads schema_content
     = match json_loads (text_of (array_of_objects ws1 body ws2)) with
       | Some schema_data => Loaded schema_data
       | None => LoadFailed JSONDecodeError
       end.
Proof.
  intros Hnot Hchars Hws1 Hws2 Hb Ha.
  assert (He : extract_json schema_content
               = Some (text_of (array_of_objects ws1 body ws2))).
  { unfold extract_json. rewrite Hchars.
    now rewrite (re_search_skips ws1 body ws2 before after). }
  split; [exact He|]. unfold load_schema_data. now rewrite Hnot, He.
Qed.

Lemma wrapped_array_witness :
  extract_json wrapped_sample
  = Some (text_of (array_of_objects
                     [" "%string]
                     (characters (dquote ++ "schema" ++ dquote ++ ": 1")%string)
                     [" "%string]))
  /\ load_schema_data accept_bracketed wrapped_sample
     = match accept_bracketed
               (text_of (array_of_objects
                           [" "%string]
                           (characters (dquote ++ "schema" ++ dquote ++ ": 1")%string)
                           [" "%string])) with
       | Some schema_data => Loaded schema_data
       | None => LoadFailed JSONDecodeError
       end.
Proof.
  apply (wrapped_array_is_loaded accept_bracketed wrapped_sample
           (characters "Result: ") [" "%string]
           (characters (dquote ++ "schema" ++ dquote ++ ": 1")%string)
           [" "%string] (characters " (1 row)")).
  - reflexivity.
  - reflexivity.
  - repeat constructor.
  - repeat constructor.
  - simpl. intuition discriminate.
  - simpl. intuition discriminate.
Defined.

(** X17: a text that is not JSON and lacks one of the four delimiters of an
    array of objects is rejected with the [ValueError] of the script. *)
Theorem text_without_delimiters_is_rejected {J : Type}
    (json_loads : string -> option J) (schema_content : string) :
  json_loads schema_content = None ->
  ~ In "["%string (characters schema_content)
  \/ ~ In "{"%string (characters schema_content)
  \/ ~ In "}"%string (characters schema_content)
  \/ ~ In "]"%string (characters schema_content) ->
  extract_json schema_content = None
  /\ load_schema_data json_loads schema_content
     = LoadFailed (ValueError "No se pudo extraer JSON válido del archivo").
Proof.
  intros Hnot Hlack.
  assert (He : extract_json schema_content = None).
  { destruct (extract_json schema_content) as [group0|] eqn:E; [|reflexivity].
    exfalso.
    destruct (extract_json_Some _ _ E)
      as (skipped & rest & ws1 & body & ws2 & Hchars & _).
    rewrite Hchars, array_of_objects_app in Hlack.
    destruct Hlack as [H|[H|[H|H]]]; apply H; apply in_or_app; right.
    - now left.
    - right. apply in_or_app. right. now left.
    - right. apply in_or_app. right. right. apply in_or_app. right. now left.
    - right. apply in_or_app. right. right. apply in_or_app. right. right.
      apply in_or_app. right. now left. }
  split; [exact He|]. unfold load_schema_data. now rewrite Hnot, He.
Qed.

Lemma text_without_delimiters_witness :
  extract_json "id | name" = None
  /\ load_schema_data accept_bracketed "id | name"
     = LoadFailed (ValueError "No se pudo extraer JSON válido del archivo").
Proof.
  apply (text_without_delimiters_is_rejected accept_bracketed "id | name").
  - reflexivity.
  - left. simpl. intuition discriminate.
Defined.

(** *** Extracting twice *)

Lemma characters_whole (ch s : string) :
  whole_character ch = true ->
  characters (ch ++ s)%string = ch :: characters s.
Proof.
  destruct ch as [|c1 rest]; [discriminate|]. unfold whole_character.
  intros H. apply Nat.eqb_eq in H. cbn [String.append characters].
  destruct (N.ltb (N_of_ascii c1) 128).
  { destruct rest; [reflexivity | discriminate]. }
  destruct (N.ltb (N_of_ascii c1) 224).
  { destruct rest as [|c2 [|c3 rest]]; try discriminate. reflexivity. }
  destruct (N.ltb (N_of_ascii c1) 240).
  { destruct rest as [|c2 [|c3 [|c4 rest]]]; try discriminate. reflexivity. }
  destruct rest as [|c2 [|c3 [|c4 [|c5 rest]]]]; try discriminate. reflexivity.
Qed.

Lemma characters_of_whole (l : list string) :
  Forall (fun ch => whole_character ch = true) l -> characters (text_of l) = l.
Proof.
  induction 1 as [|ch l Hch _ IH]; [reflexivity|].
  cbn [text_of fold_right]. rewrite characters_whole by assumption.
  f_equal. exact IH.
Qed.

Lemma inner_characters_whole_bounded (n : nat) (s : string)
    (l1 : list string) (x : string) (l2 : list string) :
  String.length s <= n ->
  characters s = l1 ++ x :: l2 -> l2 <> [] -> whole_character x = true.
Proof.
  revert s l1. induction n as [|n IH]; intros s l1 Hlen Hc Hl2.
  - destruct s; [destruct l1; discriminate | simpl in Hlen; lia].
  - destruct s as [|c1 rest1]; [destruct l1; discriminate|].
    cbn [characters] in Hc. simpl in Hlen.
    assert (Hstep : forall ch tail,
               whole_character ch = true ->
               String.length tail <= n ->
               ch :: characters tail = l1 ++ x :: l2 ->
               whole_character x = true).
    { intros ch tail Hch Htail E. destruct l1 as [|y l1]; cbn [List.app] in E.
      - injection E as <- _. exact Hch.
      - injection E as _ E. exact (IH tail l1 Htail E Hl2). }
    assert (Hlast : forall ch, [ch] = l1 ++ x :: l2 -> whole_character x = true).
    { intros ch E. exfalso. destruct l1 as [|y [|z l1]]; cbn [List.app] in E.
      - injection E as _ E. apply Hl2. now symmetry.
      - discriminate.
      - discriminate. }
    destruct (N.ltb (N_of_ascii c1) 128) eqn:E1.
    { refine (Hstep _ _ _ _ Hc);
        [unfold whole_character; cbv zeta; now rewrite E1 | lia]. }
    destruct (N.ltb (N_of_ascii c1) 224) eqn:E2.
    { destruct rest1 as [|c2 rest2]; [exact (Hlast _ Hc)|].
      simpl in Hlen.
      refine (Hstep _ _ _ _ Hc);
        [unfold whole_character; cbv zeta; now rewrite E1, E2 | lia]. }
    destruct (N.ltb (N_of_ascii c1) 240) eqn:E3.
    { destruct rest1 as [|c2 [|c3 rest3]]; try exact (Hlast _ Hc).
      simpl in Hlen.
      refine (Hstep _ _ _ _ Hc);
        [unfold whole_character; cbv zeta; now rewrite E1, E2, E3 | lia]. }
    destruct rest1 as [|c2 [|c3 [|c4 rest4]]]; try exact (Hlast _ Hc).
    simpl in Hlen.
    refine (Hstep _ _ _ _ Hc);
        [unfold whole_character; cbv zeta; now rewrite E1, E2, E3 | lia].
Qed.

Lemma segment_whole (s : string) (m l1 l2 : list string) :
  characters s = l1 ++ m ++ l2 ->
  whole_character (last m "]"%string) = true ->
  Forall (fun ch => whole_character ch = true) m.
Proof.
  revert l1. induction m as [|x m IH]; intros l1 Hc Hlast; [constructor|].
  constructor.
  - destruct m as [|y m].
    + exact Hlast.
    + apply (inner_characters_whole_bounded _ s l1 x ((y :: m) ++ l2) (le_n _) Hc).
      discriminate.
  - apply (IH (l1 ++ [x])).
    + rewrite <- app_assoc. exact Hc.
    + destruct m; [reflexivity | exact Hlast].
Qed.

Lemma last_array_of_objects (ws1 body ws2 : list string) :
  last (array_of_objects ws1 body ws2) "]"%string = "]"%string.
Proof.
  unfold array_of_objects.
  change ("["%string :: ws1 ++ "{"%string :: body ++ "}"%string :: ws2 ++ ["]"%string])
    with (("["%string :: ws1) ++ "{"%string :: body ++ "}"%string :: ws2 ++ ["]"%string]).
  rewrite !app_comm_cons, !app_assoc. apply last_last.
Qed.

(** X18: extracting twice is extracting once: the text the pattern extracts
    is matched by the pattern as a whole, so a second extraction returns it
    unchanged. *)
Theorem extract_json_idempotent (schema_content group0 : string) :
  extract_json schema_content = Some group0 ->
  extract_json group0 = Some group0.
Proof.
  intros H.
  destruct (extract_json_Some _ _ H)
    as (skipped & rest & ws1 & body & ws2 & Hchars & -> & Hws1 & Hws2).
  assert (Hwhole : Forall (fun ch => whole_character ch = true)
                          (array_of_objects ws1 body ws2)).
  { apply (segment_whole schema_content _ skipped rest Hchars).
    now rewrite last_array_of_objects. }
  unfold extract_json. rewrite (characters_of_whole _ Hwhole).
  pose proof (re_search_skips ws1 body ws2 [] [] Hws1 Hws2
                              (fun H => H) (fun H => H)) as Hs.
  cbn [List.app] in Hs. rewrite app_nil_r in Hs. now rewrite Hs.
Qed.

Lemma extract_json_idempotent_witness :
  extract_json ("[ {" ++ dquote ++ "schema" ++ dquote ++ ": 1} ]")%string
  = Some ("[ {" ++ dquote ++ "schema" ++ dquote ++ ": 1} ]")%string.
Proof.
  exact (extract_json_idempotent wrapped_sample _ eq_refl).
Defined.

(** ** Labels and markers read off the records *)

Lemma table_of_records
    (rows : list row) (s t : string) (td : table_info) :
  lookup_table s t (fold_left store_row rows []) = Some td ->
  rows_of s t rows <> []
  /\ columns td = map column_of_row (rows_of s t rows)
  /\ primary_key td = fold_left primary_key_after (rows_of s t rows) None
  /\ foreign_keys td = flat_map fk_of_row (rows_of s t rows)
  /\ unique_constraints td = flat_map unique_of_row (rows_of s t rows).
Proof.
  rewrite lookup_table_aggregate. intros Hl.
  destruct (rows_of s t rows) as [|r rs] eqn:E; [discriminate|].
  assert (Htd : td = build_table (r :: rs) new_table) by congruence.
  subst td. split; [discriminate|].
  destruct (build_table_members (r :: rs) new_table) as (-> & -> & -> & ->).
  repeat split; reflexivity.
Qed.

Lemma existsb_unique_of_rows (name : string) (rows : list row) :
  existsb (String.eqb name) (flat_map unique_of_row rows)
  = existsb (fun r => is_constraint r "UNIQUE" && String.eqb name (column r)) rows.
Proof.
  induction rows as [|r rows IH]; [reflexivity|].
  cbn [flat_map existsb]. rewrite existsb_app, IH. unfold unique_of_row.
  destruct (is_constraint r "UNIQUE"); simpl; [|reflexivity].
  now rewrite orb_false_r.
Qed.

Lemma find_fk_of_rows (name : string) (rows : list row) :
  find (fun fk => String.eqb (fk_column fk) name) (flat_map fk_of_row rows)
  = match find (fun r => is_constraint r "FOREIGN KEY"
                         && String.eqb (column r) name) rows with
    | Some r => Some (ForeignKey (column r) (references_table r))
    | None => None
    end.
Proof.
  induction rows as [|r rows IH]; [reflexivity|].
  cbn [flat_map find]. rewrite find_app, IH. unfold fk_of_row.
  destruct (is_constraint r "FOREIGN KEY"); simpl; [|reflexivity].
  now destruct (String.eqb (column r) name).
Qed.

(** X19: the constraint labels on a line of the summary gather the records
    of the whole table for that column name: PRIMARY KEY when the name is
    the column of the last PRIMARY KEY record, UNIQUE when some UNIQUE record
    has the name, and the reference of the first FOREIGN KEY record of the
    name, in this order. *)
Theorem labels_gather_the_records_of_the_table
    (schema_data : list item) (org : schema_map) (s t : string) (td : table_info) :
  aggregate schema_data = Ok org ->
  lookup_table s t org = Some td ->
  exists rows,
    schema_data = map item_of_row rows
    /\ forall col,
         constraints_of td col
         = labels_of_records (rows_of s t rows) (col_name col).
Proof.
  intros H Hl. rows_of_input H rows Hrows. exists rows. split; [assumption|].
  destruct (table_of_records rows s t td Hl) as (_ & _ & Hp & Hf & Hu).
  intros col. rewrite constraints_of_labels. unfold key_labels, labels_of_records.
  rewrite Hp, Hf, Hu, existsb_unique_of_rows, find_fk_of_rows.
  rewrite <- app_assoc. do 2 f_equal.
  now destruct (find _ (rows_of s t rows)).
Qed.

Lemma labels_gather_witness :
  exists rows,
    sample_data = map item_of_row rows
    /\ forall col,
         constraints_of
           (Table [Column "user_id" "uuid" true; Column "legacy_id" "int4" true;
                   Column "id" "uuid" false]
                  (Some "id")
                  [ForeignKey "user_id" (Some "public.users");
                   ForeignKey "legacy_id" None] [])
           col
         = labels_of_records (rows_of "public" "posts" rows) (col_name col).
Proof.
  exact (labels_gather_the_records_of_the_table sample_data sample_org
           "public" "posts" _ eq_refl eq_refl).
Defined.

(** X20: the entity of a table in the diagram has one attribute line for
    each record of the table, in input order, giving the data type and the
    column name of the record, and marked PK exactly when the column name is
    the column of the last PRIMARY KEY record of the table. *)
Theorem entity_has_one_line_per_record
    (schema_data : list item) (org : schema_map) (s t : string) (td : table_info) :
  aggregate schema_data = Ok org ->
  lookup_table s t org = Some td ->
  exists rows,
    schema_data = map item_of_row rows
    /\ forall relations_summary,
         relations_entity org s relations_summary t
         = (relations_summary ++ "    " ++ s ++ "_" ++ t ++ " {" ++ nl
            ++ text_of
                 (map (fun r =>
                         "        " ++ data_type r ++ " " ++ column r ++ " "
                         ++ (if same_as_primary_key
                                  (column r)
                                  (fold_left primary_key_after (rows_of s t rows) None)
                             then "PK" else "")
                         ++ nl)
                      (rows_of s t rows))
            ++ "    }" ++ nl)%string.
Proof.
  intros H Hl. rows_of_input H rows Hrows. exists rows. split; [assumption|].
  destruct (table_of_records rows s t td Hl) as (_ & Hc & Hp & _).
  intros acc. rewrite relations_entity_block, dd_get_table, Hl.
  cbn [table_or_new]. unfold entity_block, pk_marker.
  now rewrite Hc, Hp, map_map.
Qed.

Lemma entity_lines_witness :
  exists rows,
    sample_data = map item_of_row rows
    /\ forall relations_summary,
         relations_entity sample_org "public" relations_summary "posts"
         = (relations_summary ++ "    " ++ "public" ++ "_" ++ "posts" ++ " {" ++ nl
            ++ text_of
                 (map (fun r =>
                         "        " ++ data_type r ++ " " ++ column r ++ " "
                         ++ (if same_as_primary_key
                                  (column r)
                                  (fold_left primary_key_after
                                             (rows_of "public" "posts" rows) None)
                             then "PK" else "")
                         ++ nl)
                      (rows_of "public" "posts" rows))
            ++ "    }" ++ nl)%string.
Proof.
  exact (entity_has_one_line_per_record sample_data sample_org "public" "posts" _
           eq_refl eq_refl).
Defined.

(** ** Nothing is empty *)

(** X21: in the aggregated map every schema has at least one table and
    every table has at least one column entry: no section of the summary
    and no entity of the diagram is empty. *)
Theorem no_empty_schema_or_table (schema_data : list item) (org : schema_map) :
  aggregate schema_data = Ok org ->
  Forall (fun e =>
            snd e <> []
            /\ Forall (fun e' => columns (snd e') <> []) (snd e))
         org.
Proof.
  intros H. pose proof (well_keyed_aggregate _ _ H) as [Hs Ht].
  rows_of_input H rows Hrows. clear Hrows. apply Forall_forall.
  intros [s tables] HIn. cbn [snd].
  pose proof (In_lookup_Some _ s tables Hs HIn) as Hl.
  rewrite Forall_forall in Ht. pose proof (Ht _ HIn) as Hnd. cbn [snd] in Hnd.
  split.
  - assert (Hk : In s (keys (fold_left store_row rows [])))
      by (change s with (fst (s, tables)); now apply in_map).
    rewrite keys_fold_store_row, In_fold_note_seen in Hk.
    destruct Hk as [[]|Hk]. apply in_map_iff in Hk. destruct Hk as (r & <- & Hr).
    pose proof (tables_fold_store_row (schema r) rows []) as Hkeys.
    unfold dd_get at 1 in Hkeys. rewrite Hl in Hkeys.
    assert (Ht' : In (table r) (keys tables)).
    { rewrite Hkeys, In_fold_note_seen. right. apply in_map.
      apply filter_In. split; [assumption | apply String.eqb_refl]. }
    intros ->. destruct Ht'.
  - apply Forall_forall. intros [t td] HIn'. cbn [snd].
    assert (Hlt : lookup_table s t (fold_left store_row rows []) = Some td).
    { unfold lookup_table. rewrite Hl. now apply In_lookup_Some. }
    destruct (table_of_records rows s t td Hlt) as (Hne & -> & _).
    destruct (rows_of s t rows); [contradiction | discriminate].
Qed.

Lemma no_empty_witness :
  Forall (fun e =>
            snd e <> []
            /\ Forall (fun e' => columns (snd e') <> []) (snd e))
         sample_org.
Proof.
  exact (no_empty_schema_or_table sample_data sample_org eq_refl).
Defined.
